(** * KubeIngressProxy (kubespawner/proxy.py): routes kept as cluster resources

    A shallow embedding of [kubespawner/proxy.py] and the properties of its
    route reconciliation: the name codec ([safe_name_for_routespec]), the
    create-or-patch upsert ([ensure_object]), the confirmed three-step
    [add_route], the teardown [delete_route] with [delete_if_exists], and
    the route table view [get_all_routes].

    The coroutines are written in a state-and-exception monad over the state
    of the outside world (cluster, reflector caches, clock) that also
    records what a run did.  The cluster API client, the reflectors, [json]
    and [hashlib] are fields of the class [External], so that every general
    statement holds for whatever these collaborators do; [escapism.escape]
    is written out; the two helpers of the package that [proxy.py] imports,
    [generate_hashed_slug] and [make_ingress], are modelled from the
    specification. *)

From Stdlib Require Import ZArith NArith Ascii String List Lia Bool.
From stdpp Require Import base gmap strings list.

Set Default Proof Using "Type*".
Local Open Scope string_scope.
Local Open Scope list_scope.

(** [simpl] may compute string concatenation. *)
Local Arguments String.append : simpl nomatch.

(* ================================================================== *)
(** * Python strings *)
(* ================================================================== *)

(** A [str] is held as the bytes of its UTF-8 encoding (a [str] with a
    lone surrogate has none and is not among the inputs).  The strings the
    proxy computes on after escaping are pure ASCII, where bytes and
    characters coincide. *)

Definition ord (c : ascii) : N := N_of_ascii c.

(** [c in string.ascii_lowercase], [c in string.digits],
    [c in string.ascii_uppercase] *)
Definition is_ascii_lowercase (c : ascii) : bool :=
  (97 <=? ord c)%N && (ord c <=? 122)%N.
Definition is_digit (c : ascii) : bool :=
  (48 <=? ord c)%N && (ord c <=? 57)%N.
Definition is_ascii_uppercase (c : ascii) : bool :=
  (65 <=? ord c)%N && (ord c <=? 90)%N.

(** [str.lower()] on ASCII text *)
Definition lower_char (c : ascii) : ascii :=
  if is_ascii_uppercase c then ascii_of_N (ord c + 32) else c.

Fixpoint lower (s : string) : string :=
  match s with
  | EmptyString => EmptyString
  | String c rest => String (lower_char c) (lower rest)
  end.

(** [all(p(c) for c in s)] *)
Fixpoint string_forall (p : ascii -> bool) (s : string) : bool :=
  match s with
  | EmptyString => true
  | String c rest => p c && string_forall p rest
  end.

(** [s[-1]] when [s] is not empty *)
Fixpoint last_char (s : string) : option ascii :=
  match s with
  | EmptyString => None
  | String c EmptyString => Some c
  | String _ rest => last_char rest
  end.

(* ================================================================== *)
(** * The escapism library: [escapism.escape] *)
(* ================================================================== *)

Module escapism.

(** one digit of ['%X' % n] *)
Definition hex_digit (n : N) : ascii :=
  ascii_of_N (if (n <? 10)%N then 48 + n else 55 + n).

(** ['%X' % byte]: upper-case hexadecimal without padding; a byte has one
    digit or two *)
Definition format_X (byte : N) : string :=
  if (byte <? 16)%N then String (hex_digit byte) EmptyString
  else String (hex_digit (byte / 16)) (String (hex_digit (byte mod 16)) EmptyString).

(** [_escape_char(c, escape_char)], for one byte of [c.encode('utf8')] *)
Definition _escape_char (byte : ascii) (escape_char : ascii) : string :=
  String escape_char (format_X (ord byte)).

(** [escape(to_escape, safe, escape_char)].  The escape character is taken
    out of the safe set; every character outside it is replaced by the
    escapes of its UTF-8 bytes.  The bytes of a character that is not
    ASCII are all above 127 and a safe set within ASCII holds none of
    them, so the loop over characters is the loop over bytes. *)
Fixpoint escape (to_escape : string) (safe : ascii -> bool) (escape_char : ascii)
  : string :=
  match to_escape with
  | EmptyString => EmptyString
  | String c rest =>
      (if safe c && negb (Ascii.eqb c escape_char)
       then String c EmptyString
       else _escape_char c escape_char)
      +:+ escape rest safe escape_char
  end.

End escapism.

(* ================================================================== *)
(** * Collaborators of the proxy *)
(* ================================================================== *)

(** The three resource kinds the proxy keeps per route. *)
Inductive kind := Endpoints | Service | Ingress.

Global Instance kind_eq_dec : EqDecision kind.
Proof. solve_decision. Defined.

(** [V1ObjectMeta]: what the proxy reads and writes of a resource.
    [annotations] is [None] where the object has no such entry. *)
Record V1ObjectMeta := {
  name : string;
  annotations : option (gmap string string);
  labels : gmap string string;
}.

(** A resource body as submitted, and a resource object as a reflector
    holds it ([resource["metadata"]]). *)
Record resource := { metadata : V1ObjectMeta }.

(** The requests [add_route] and [delete_route] send:
    [create_namespaced_<kind>(namespace, body)],
    [patch_namespaced_<kind>(namespace, body, name)] and
    [delete_namespaced_<kind>(name, namespace, body, [grace_period_seconds])]
    where [body] of a deletion is [V1DeleteOptions(grace_period_seconds=0)]. *)
Inductive api_call :=
| create_namespaced (k : kind) (namespace : string) (body : resource)
| patch_namespaced (k : kind) (namespace : string) (body : resource) (name : string)
| delete_namespaced (k : kind) (name : string) (namespace : string)
    (body_grace_period_seconds : Z) (grace_period_seconds : option Z).

(** What lies outside [kubespawner/proxy.py].
    - [api c w]: awaiting the coroutine of request [c] when the world is
      [w]: the [status] of the [ApiException] raised, or the response
      object; and the world afterwards.
    - [resources k w]: [reflector.resources] of kind [k], a dict from
      ["namespace/name"] to the resource, in insertion order.
    - [asleep w]: the world after one sleep of a backoff wait (the watch
      feeds the reflectors meanwhile).
    - [timeout w]: how many clock ticks (sleeps) the deadline drawn by a
      backoff wait starting in [w] lies ahead; the timeout of
      [exponential_backoff] with its jitter.
    - [json_dumps], [json_loads]: the json module on payloads ([None]: a
      [JSONDecodeError]).
    - [sha256_hexdigest s]: [hashlib.sha256(s.encode('utf-8')).hexdigest()].
    - [wants_endpoint target]: the decision of the resource builder to
      produce an endpoints body. *)
Class External := {
  world : Type;
  response : Type;
  payload : Type;
  api : api_call -> world -> (Z + response) * world;
  resources : kind -> world -> list (string * resource);
  asleep : world -> world;
  timeout : world -> nat;
  json_dumps : payload -> string;
  json_loads : string -> option payload;
  sha256_hexdigest : string -> string;
  wants_endpoint : string -> bool;
}.

(** The configuration of a [KubeIngressProxy] instance ([self]). *)
Record KubeIngressProxy := {
  namespace : string;
  component_label : string;
}.

(* ================================================================== *)
(** * kubespawner.utils and kubespawner.objects *)
(* ================================================================== *)

Section Builders.
Context {ext : External}.

(** Modelled from the spec: the hashing/truncation step of the name codec,
    [kubespawner.utils.generate_hashed_slug], whose source is not part of
    this development.  It produces a bounded-length identifier: a slug
    within the bound passes as it is; a longer one is cut, and the first
    characters of its digest are appended behind the escape character, in
    lower case.  The bound is the 63 characters of a cluster resource
    name. *)
Definition generate_hashed_slug (slug : string) (limit hash_length : nat) : string :=
  if (String.length slug <? limit - hash_length)%nat then slug
  else lower (String.substring 0 (limit - hash_length - 1) slug
              +:+ "-" +:+ String.substring 0 hash_length (sha256_hexdigest slug)).

(** The three fixed annotation keys of a route. *)
Definition proxy_routespec : string := "hub.jupyter.org/proxy-routespec".
Definition proxy_target : string := "hub.jupyter.org/proxy-target".
Definition proxy_data : string := "hub.jupyter.org/proxy-data".

(** Modelled from the spec: the resource builder,
    [kubespawner.objects.make_ingress], whose source is not part of this
    development.  A pure function from (safe name, routespec, target,
    labels, payload) to the three bodies; the endpoints body may be
    missing.  All bodies are named by the safe name and carry the labels;
    routespec, target and the JSON-encoded payload are the three
    annotations.  What else a body specifies (addresses, ports, rules)
    plays no part in [proxy.py] and is left out. *)
Definition make_ingress (safe_name routespec target : string)
    (labels : gmap string string) (data : payload)
  : option resource * resource * resource :=
  let meta := {| name := safe_name;
                 annotations := Some (<[proxy_data := json_dumps data]>
                                      (<[proxy_target := target]>
                                       (<[proxy_routespec := routespec]> ∅)));
                 labels := labels |} in
  let body := {| metadata := meta |} in
  (if wants_endpoint target then Some body else None, body, body).

End Builders.

(* ================================================================== *)
(** * Coroutines *)
(* ================================================================== *)

(** The exceptions that occur. *)
Inductive exn :=
| ApiException (status : Z)
| TypeError (msg : string)
| TimeoutError (msg : string)
| KeyError (key : string)
| JSONDecodeError.

Inductive result (A : Type) :=
| Ret (a : A)
| Raise (e : exn).
Arguments Ret {A} a.
Arguments Raise {A} e.

Inductive log_level := INFO | WARNING.

(** What a run leaves behind, in the order it happened: the requests
    awaited, the evaluations of a confirmation predicate and their answer,
    the sleeps between them and the log lines. *)
Inductive event :=
| EvCall (c : api_call)
| EvPoll (k : kind) (key : string) (found : bool)
| EvSleep
| EvLog (level : log_level) (msg : string).

Section Proxy.
Context {ext : External}.

(** The outside world and the clock of the event loop. *)
Record state := { now : world; clock : nat }.

(** An awaited coroutine: from the state it starts in to its result, the
    state it ends in and its events. *)
Definition coroutine (A : Type) : Type := state -> result A * state * list event.

Definition ret {A} (a : A) : coroutine A := fun s => (Ret a, s, []).
Definition raise {A} (e : exn) : coroutine A := fun s => (Raise e, s, []).

Definition bind {A B} (m : coroutine A) (f : A -> coroutine B) : coroutine B :=
  fun s =>
    match m s with
    | (Ret a, s1, t1) => let '(r, s2, t2) := f a s1 in (r, s2, t1 ++ t2)
    | (Raise e, s1, t1) => (Raise e, s1, t1)
    end.

(** [try: m  except <the exceptions handler matches>: handler] *)
Definition try_except {A} (m : coroutine A) (handler : exn -> coroutine A)
  : coroutine A :=
  fun s =>
    match m s with
    | (Ret a, s1, t1) => (Ret a, s1, t1)
    | (Raise e, s1, t1) => let '(r, s2, t2) := handler e s1 in (r, s2, t1 ++ t2)
    end.

Notation "x <- m ;; f" := (bind m (fun x => f))
  (at level 100, m at level 99, f at level 200, right associativity).
Notation "m ;;; f" := (bind m (fun _ => f))
  (at level 100, f at level 200, right associativity).

(** What an [await] can be applied to: the coroutine an API method
    returns, not yet awaited; or a plain object such as the response a
    request came back with. *)
Inductive pyobject :=
| Coroutine (c : api_call)
| Object (r : response).

(** [await o] *)
Definition await (o : pyobject) : coroutine response :=
  match o with
  | Coroutine c => fun s =>
      let '(r, w) := api c (now s) in
      (match r with
       | inl status => Raise (ApiException status)
       | inr resp => Ret resp
       end, {| now := w; clock := clock s |}, [EvCall c])
  | Object _ => raise (TypeError "object can't be used in 'await' expression")
  end.

Definition log_info (msg : string) : coroutine unit :=
  fun s => (Ret tt, s, [EvLog INFO msg]).
Definition log_warn (msg : string) : coroutine unit :=
  fun s => (Ret tt, s, [EvLog WARNING msg]).

(** [asyncio.gather] of coroutines: the coroutines are run to their end
    one after the other; the first exception among them is the one
    raised.  (Where [delete_route] calls it, none of the three has a
    point at which it could be suspended.) *)
Fixpoint gather (aws : list (coroutine unit)) : coroutine unit :=
  match aws with
  | [] => ret tt
  | c :: rest => fun s =>
      let '(r, s1, t1) := c s in
      let '(rs, s2, t2) := gather rest s1 in
      (match r with Raise e => Raise e | Ret _ => rs end, s2, t1 ++ t2)
  end.

(** ** jupyterhub.utils.exponential_backoff *)

(** [gen.sleep(dt)]: the clock counts in sleeps, a sleep takes one tick;
    the reflectors are fed meanwhile. *)
Definition sleep : coroutine unit :=
  fun s => (Ret tt, {| now := asleep (now s); clock := S (clock s) |}, [EvSleep]).

(** The loop [while True: ...] of [exponential_backoff]: evaluate
    [pass_func]; return when it holds; leave the loop when the deadline is
    behind ([remaining < 0]); sleep otherwise.  [fuel] bounds the number of
    sleeps. *)
Fixpoint backoff_loop (fuel : nat) (pass_func : coroutine bool)
    (fail_message : string) (deadline : nat) : coroutine bool :=
  r <- pass_func ;;
  if r : bool then ret r
  else fun s =>
    if (deadline <? clock s)%nat then raise (TimeoutError fail_message) s
    else match fuel with
         | O => raise (TimeoutError fail_message) s
         | S fuel' =>
             (sleep ;;; backoff_loop fuel' pass_func fail_message deadline) s
         end.

(** [exponential_backoff(pass_func, fail_message)]: the deadline is drawn
    when the wait starts.  A sleep takes a tick, so [S timeout] sleeps
    bring the clock behind it (see [backoff_loop_fuel]). *)
Definition exponential_backoff (pass_func : coroutine bool) (fail_message : string)
  : coroutine bool :=
  fun s =>
    backoff_loop (S (timeout (now s))) pass_func fail_message
                 (clock s + timeout (now s)) s.

(** ** KubeIngressProxy *)

Variable self : KubeIngressProxy.

(** [f'{namespace}/{safe_name}' in reflector.resources.keys()], the
    predicate handed to [exponential_backoff] *)
Definition in_keys (key : string) (d : list (string * resource)) : bool :=
  existsb (String.eqb key) (map fst d).

Definition reflector_has (k : kind) (key : string) : coroutine bool :=
  fun s => let found := in_keys key (resources k (now s)) in
           (Ret found, s, [EvPoll k key found]).

Definition safe_name_for_routespec (routespec : string) : string :=
  let safe_chars := fun c => is_ascii_lowercase c || is_digit c in
  let safe_name :=
    generate_hashed_slug
      ("jupyter-" +:+ escapism.escape routespec safe_chars "-" +:+ "-route")
      63 6 in
  safe_name.

(** [future] is whatever the caller hands over; [await future] is where
    an [ApiException] would have to be raised for the handler to see it. *)
Definition delete_if_exists (kind safe_name : string) (future : pyobject)
  : coroutine unit :=
  try_except
    (_ <- await future ;;
     log_info ("Deleted " +:+ kind +:+ "/" +:+ safe_name))
    (fun e =>
       match e with
       | ApiException status =>
           if negb (status =? 404)%Z then raise e
           else log_warn ("Could not delete " +:+ kind +:+ "/" +:+ safe_name
                          +:+ ": does not exist")
       | _ => raise e
       end).

(** The closure [ensure_object] of [add_route], with the [safe_name] it
    captures. *)
Definition ensure_object (safe_name : string)
    (create_func : string -> resource -> api_call)
    (patch_func : string -> resource -> string -> api_call)
    (body : resource) (kind : string) : coroutine unit :=
  try_except
    (resp <- await (Coroutine (create_func (namespace self) body)) ;;
     log_info ("Created " +:+ kind +:+ "/" +:+ safe_name))
    (fun e =>
       match e with
       | ApiException status =>
           if (status =? 409)%Z then
             log_warn ("Trying to patch " +:+ kind +:+ "/" +:+ safe_name
                       +:+ ", it already exists") ;;;
             resp <- await (Coroutine (patch_func (namespace self) body
                                                  (name (metadata body)))) ;;
             ret tt
           else raise e
       | _ => raise e
       end).

Definition route_labels : gmap string string :=
  <["hub.jupyter.org/proxy-route" := "true"]>
    (<["component" := component_label self]>
      (<["heritage" := "jupyterhub"]> ∅)).

Definition cache_key (safe_name : string) : string :=
  namespace self +:+ "/" +:+ safe_name.

Definition not_found_message (kind safe_name : string) : string :=
  "Could not find " +:+ kind +:+ "/" +:+ safe_name +:+ " after creating it".

(** In the branch without an endpoints body the source awaits the
    deletion where it calls it ([delete_endpoint = await ...]), so that
    [delete_endpoint] is the response: an object, not a coroutine. *)
Definition add_route (routespec target : string) (data : payload) : coroutine unit :=
  let safe_name := lower (safe_name_for_routespec routespec) in
  let labels := route_labels in
  let '(endpoint, service, ingress) :=
    make_ingress safe_name routespec target labels data in
  match endpoint with
  | Some endpoint =>
      ensure_object safe_name (create_namespaced Endpoints)
        (patch_namespaced Endpoints) endpoint "endpoints" ;;;
      _ <- exponential_backoff (reflector_has Endpoints (cache_key safe_name))
             (not_found_message "endpoints" safe_name) ;;
      ret tt
  | None =>
      delete_endpoint <-
        await (Coroutine (delete_namespaced Endpoints safe_name (namespace self)
                                            0 None)) ;;
      delete_if_exists "endpoint" safe_name (Object delete_endpoint)
  end ;;;
  ensure_object safe_name (create_namespaced Service)
    (patch_namespaced Service) service "service" ;;;
  _ <- exponential_backoff (reflector_has Service (cache_key safe_name))
         (not_found_message "service" safe_name) ;;
  ensure_object safe_name (create_namespaced Ingress)
    (patch_namespaced Ingress) ingress "ingress" ;;;
  _ <- exponential_backoff (reflector_has Ingress (cache_key safe_name))
         (not_found_message "ingress" safe_name) ;;
  ret tt.

(** The three deletions are awaited where they are called, one after the
    other, before [asyncio.gather] is reached; [delete_endpoint],
    [delete_service] and [delete_ingress] are their responses. *)
Definition delete_route (routespec : string) : coroutine unit :=
  let safe_name := lower (safe_name_for_routespec routespec) in
  delete_endpoint <-
    await (Coroutine (delete_namespaced Endpoints safe_name (namespace self)
                                        0 None)) ;;
  delete_service <-
    await (Coroutine (delete_namespaced Service safe_name (namespace self)
                                        0 None)) ;;
  delete_ingress <-
    await (Coroutine (delete_namespaced Ingress safe_name (namespace self)
                                        0 (Some 0%Z))) ;;
  gather [ delete_if_exists "endpoint" safe_name (Object delete_endpoint);
           delete_if_exists "service" safe_name (Object delete_service);
           delete_if_exists "ingress" safe_name (Object delete_ingress) ].

(** A route as [get_all_routes] reports it. *)
Record RouteRecord := {
  routespec : string;
  target : string;
  data : payload;
}.

(** [ingress["metadata"]["annotations"][key]] *)
Definition annotation (ingress : resource) (key : string) : coroutine string :=
  match annotations (metadata ingress) with
  | None => raise (KeyError "annotations")
  | Some a =>
      match a !! key with
      | None => raise (KeyError key)
      | Some v => ret v
      end
  end.

(** [json.loads(text)] *)
Definition loads (text : string) : coroutine payload :=
  match json_loads text with
  | None => raise JSONDecodeError
  | Some v => ret v
  end.

(** One item of the dict comprehension: the key, then the three entries
    of the value in the order they are written. *)
Definition route_item (ingress : resource) : coroutine (string * RouteRecord) :=
  key <- annotation ingress proxy_routespec ;;
  r <- annotation ingress proxy_routespec ;;
  t <- annotation ingress proxy_target ;;
  text <- annotation ingress proxy_data ;;
  d <- loads text ;;
  ret (key, {| routespec := r; target := t; data := d |}).

(** [{key: value for ingress in values}]: a later item replaces an earlier
    one under the same key. *)
Fixpoint comprehension (values : list resource) (routes : gmap string RouteRecord)
  : coroutine (gmap string RouteRecord) :=
  match values with
  | [] => ret routes
  | ingress :: rest =>
      item <- route_item ingress ;;
      comprehension rest (<[item.1 := item.2]> routes)
  end.

Definition get_all_routes : coroutine (gmap string RouteRecord) :=
  fun s =>
    let ingress_copy := resources Ingress (now s) in
    comprehension (map snd ingress_copy) ∅ s.

End Proxy.

Notation "x <- m ;; f" := (bind m (fun x => f))
  (at level 100, m at level 99, f at level 200, right associativity).
Notation "m ;;; f" := (bind m (fun _ => f))
  (at level 100, f at level 200, right associativity).

(* ================================================================== *)
(** * Vocabulary of the statements *)
(* ================================================================== *)

(** Character classes of resource names. *)
Definition is_hex_lower (c : ascii) : bool :=
  is_digit c || ((97 <=? ord c)%N && (ord c <=? 102)%N).
Definition is_dash (c : ascii) : bool := Ascii.eqb c "-".

(** lowercase letters and digits only *)
Definition lowercase_alnum (c : ascii) : bool := is_ascii_lowercase c || is_digit c.
(** letters of either case, digits and the dash *)
Definition name_char (c : ascii) : bool :=
  is_ascii_lowercase c || is_ascii_uppercase c || is_digit c || is_dash c.
(** the characters of a cluster resource name *)
Definition label_char (c : ascii) : bool :=
  is_ascii_lowercase c || is_digit c || is_dash c.

(** A legal resource name: 1 to 63 characters, lowercase letters, digits
    and dashes, a letter first and a letter or digit last. *)
Definition legal_name (s : string) : Prop :=
  1 <= String.length s <= 63 /\
  string_forall label_char s = true /\
  (exists c, String.get 0 s = Some c /\ is_ascii_lowercase c = true) /\
  (exists c, last_char s = Some c /\ lowercase_alnum c = true).

(** The kind, the namespace and the name a request is addressed to. *)
Definition call_kind (c : api_call) : kind :=
  match c with
  | create_namespaced k _ _ => k
  | patch_namespaced k _ _ _ => k
  | delete_namespaced k _ _ _ _ => k
  end.
Definition call_namespace (c : api_call) : string :=
  match c with
  | create_namespaced _ ns _ => ns
  | patch_namespaced _ ns _ _ => ns
  | delete_namespaced _ _ ns _ _ => ns
  end.
Definition call_name (c : api_call) : string :=
  match c with
  | create_namespaced _ _ body => name (metadata body)
  | patch_namespaced _ _ _ n => n
  | delete_namespaced _ n _ _ _ => n
  end.

(** An event that touches the cluster or a reflector does so under the
    namespace [ns] and the name [n]. *)
Definition addressed_to (ns n : string) (e : event) : Prop :=
  match e with
  | EvCall c => call_namespace c = ns /\ call_name c = n
  | EvPoll _ key _ => key = ns +:+ "/" +:+ n
  | _ => True
  end.

(** An event of the step for kind [k]: a request for that kind, a look
    into that kind's reflector, or a sleep or log line in between. *)
Definition step_of (k : kind) (e : event) : Prop :=
  match e with
  | EvCall c => call_kind c = k
  | EvPoll k' _ _ => k' = k
  | _ => True
  end.

(** The events of a step end with the reflector of [k] showing [key]. *)
Definition confirmed (k : kind) (key : string) (t : list event) : Prop :=
  exists before, t = before ++ [EvPoll k key true].

(** The reflector of [k] was asked for [key] among the events. *)
Definition polled (k : kind) (key : string) (t : list event) : Prop :=
  exists found, EvPoll k key found ∈ t.

(** How often the reflector of [k] was asked. *)
Fixpoint count_polls (k : kind) (t : list event) : nat :=
  match t with
  | [] => 0
  | EvPoll k' _ _ :: t' => (if bool_decide (k' = k) then 1 else 0) + count_polls k t'
  | _ :: t' => count_polls k t'
  end.

(** An event of the write of kind [k]: as [step_of], and no look into a
    reflector. *)
Definition write_of (k : kind) (e : event) : Prop :=
  match e with
  | EvCall c => call_kind c = k
  | EvPoll _ _ _ => False
  | _ => True
  end.

(** The body an event submits for kind [k]: that of a create or of a patch
    request for [k]. *)
Definition written (k : kind) (e : event) : option resource :=
  match e with
  | EvCall (create_namespaced k' _ body)
  | EvCall (patch_namespaced k' _ body _) =>
      if bool_decide (k' = k) then Some body else None
  | _ => None
  end.

(** Among the events, [body] was submitted for kind [k]. *)
Definition wrote (k : kind) (body : resource) (t : list event) : Prop :=
  exists e, e ∈ t /\ written k e = Some body.

(** How the messages of [add_route] call a kind. *)
Definition kind_word (k : kind) : string :=
  match k with
  | Endpoints => "endpoints"
  | Service => "service"
  | Ingress => "ingress"
  end.

Definition key_or_decoding_error (e : exn) : bool :=
  match e with
  | KeyError _ | JSONDecodeError => true
  | _ => false
  end.

Section Vocabulary.
Context {ext : External}.

(** The digest is text of 64 lowercase hexadecimal digits. *)
Definition hexdigest_contract : Prop :=
  forall s, String.length (sha256_hexdigest s) = 64 /\
            string_forall is_hex_lower (sha256_hexdigest s) = true.

(** An ingress from which [get_all_routes] can read a route: the three
    annotations are there and the payload decodes. *)
Definition readable (ingress : resource) : bool :=
  match annotations (metadata ingress) with
  | None => false
  | Some a =>
      match a !! proxy_routespec, a !! proxy_target, a !! proxy_data with
      | Some _, Some _, Some text =>
          match json_loads text with Some _ => true | None => false end
      | _, _, _ => false
      end
  end.

(** The annotation of an ingress under [key], if any. *)
Definition annotation_of (ingress : resource) (key : string) : option string :=
  match annotations (metadata ingress) with
  | None => None
  | Some a => a !! key
  end.

(** The routespec an ingress is annotated with, if any. *)
Definition routespec_of (ingress : resource) : option string :=
  annotation_of ingress proxy_routespec.

(** An ingress that lacks one of the three annotations, or whose payload
    annotation is not JSON. *)
Definition malformed (ingress : resource) : Prop :=
  (exists key, key ∈ [proxy_routespec; proxy_target; proxy_data] /\
               annotation_of ingress key = None)
  \/ (exists text, annotation_of ingress proxy_data = Some text /\
                   json_loads text = None).

(** A cached object shows a submitted body: it has the annotations of
    the body (and possibly more). *)
Definition shows (cached body : resource) : Prop :=
  exists a b, annotations (metadata cached) = Some a /\
              annotations (metadata body) = Some b /\ b ⊆ a.

End Vocabulary.

(* ================================================================== *)
(** * The parts of a run, as the proofs take it apart *)
(* ================================================================== *)

Section Steps.
Context {ext : External}.
Variable self : KubeIngressProxy.

(** Every event of [m], from whatever state, satisfies [P]. *)
Definition emits {A} (P : event -> Prop) (m : coroutine A) : Prop :=
  forall s, Forall P (m s).2.

(** [P] does not restrict sleeps and log lines. *)
Definition quiet (P : event -> Prop) : Prop :=
  P EvSleep /\ forall level msg, P (EvLog level msg).

(** The slug handed to the hashing step. *)
Definition slug_of (routespec : string) : string :=
  "jupyter-" +:+ escapism.escape routespec lowercase_alnum "-" +:+ "-route".

(** The step for kind [k], followed by [rest]. *)
Definition step (safe_name : string) (k : kind) (body : resource)
    (rest : coroutine unit) : coroutine unit :=
  ensure_object self safe_name (create_namespaced k) (patch_namespaced k)
                body (kind_word k) ;;;
  _ <- exponential_backoff (reflector_has k (cache_key self safe_name))
         (not_found_message (kind_word k) safe_name) ;;
  rest.

(** The first step when there is no endpoints body. *)
Definition delete_step (safe_name : string) : coroutine unit :=
  delete_endpoint <-
    await (Coroutine (delete_namespaced Endpoints safe_name (namespace self)
                                        0 None)) ;;
  delete_if_exists "endpoint" safe_name (Object delete_endpoint).

(** A step that ended in an exception: a timeout, if the wait had begun. *)
Definition failed_in (k : kind) (key msg : string) (t : list event)
    (r : result unit) : Prop :=
  exists e, r = Raise e /\ (polled k key t -> e = TimeoutError msg).

(** No wait for kind [k] among the events asked its reflector more often
    than the deadline allows: two more times than the ticks it lies
    ahead. *)
Definition within_budget (k : kind) (t : list event) : Prop :=
  forall T, (forall w, timeout w <= T) -> count_polls k t <= T + 2.

(** How the service and ingress steps can end. *)
Definition tail_outcome (safe_name : string) (tS tI : list event)
    (r : result unit) (s' : state) : Prop :=
  let key := cache_key self safe_name in
  (tI = [] /\
   failed_in Service key (not_found_message "service" safe_name) tS r)
  \/ (confirmed Service key tS /\
      (failed_in Ingress key (not_found_message "ingress" safe_name) tI r
       \/ (r = Ret tt /\ confirmed Ingress key tI /\
           in_keys key (resources Ingress (now s')) = true))).

End Steps.

(* ================================================================== *)
(** * A small cluster to run the proxy against *)
(* ================================================================== *)

(** One concrete [External] on which the coroutines can be evaluated: an
    API server that refuses to create what exists (409) and to patch or
    delete what does not (404), reflectors fed during sleeps for the kinds
    under watch, a fragment of JSON and a stand-in digest. *)
Module Cluster.

Record cluster := {
  objects : list (kind * string * resource);
  cached : list (kind * string * resource);
  watched : list kind;
}.

Definition same (k : kind) (key : string) (o : kind * string * resource) : bool :=
  bool_decide (o.1.1 = k) && String.eqb o.1.2 key.

Definition holds (k : kind) (key : string) (l : list (kind * string * resource))
  : bool :=
  existsb (same k key) l.

Definition key_of (namespace name : string) : string :=
  namespace +:+ "/" +:+ name.

Definition serve (c : api_call) (w : cluster) : (Z + unit) * cluster :=
  match c with
  | create_namespaced k ns body =>
      let key := key_of ns (name (metadata body)) in
      if holds k key (objects w) then (inl 409%Z, w)
      else (inr tt, {| objects := objects w ++ [(k, key, body)];
                       cached := cached w; watched := watched w |})
  | patch_namespaced k ns body name =>
      let key := key_of ns name in
      if holds k key (objects w)
      then (inr tt,
            {| objects := map (fun o => if same k key o then (k, key, body) else o)
                              (objects w);
               cached := cached w; watched := watched w |})
      else (inl 404%Z, w)
  | delete_namespaced k name ns _ _ =>
      let key := key_of ns name in
      if holds k key (objects w)
      then (inr tt,
            {| objects := filter (fun o => negb (same k key o)) (objects w);
               cached := cached w; watched := watched w |})
      else (inl 404%Z, w)
  end.

(** During a sleep the reflectors of the kinds under watch catch up. *)
Definition feed (w : cluster) : cluster :=
  {| objects := objects w;
     cached := filter (fun o => bool_decide (o.1.1 ∈ watched w)) (objects w)
               ++ filter (fun o => negb (bool_decide (o.1.1 ∈ watched w))) (cached w);
     watched := watched w |}.

Definition view (k : kind) (w : cluster) : list (string * resource) :=
  omap (fun o => if bool_decide (o.1.1 = k) then Some (o.1.2, o.2) else None)
       (cached w).

(** The JSON texts of the examples. *)
Inductive json := JNull | JTrue | JFalse | JEmptyObject.

Definition dumps (v : json) : string :=
  match v with
  | JNull => "null"
  | JTrue => "true"
  | JFalse => "false"
  | JEmptyObject => "{}"
  end.

Definition loads (text : string) : option json :=
  if String.eqb text "null" then Some JNull
  else if String.eqb text "true" then Some JTrue
  else if String.eqb text "false" then Some JFalse
  else if String.eqb text "{}" then Some JEmptyObject
  else None.

(** A stand-in for the digest: 64 hexadecimal digits that depend on the
    text. *)
Definition digest (s : string) : string :=
  if Nat.even (String.length s)
  then "0f1e2d3c4b5a69788796a5b4c3d2e1f00f1e2d3c4b5a69788796a5b4c3d2e1f0"
  else "f0e1d2c3b4a5968778695a4b3c2d1e0ff0e1d2c3b4a5968778695a4b3c2d1e0f".

(** Targets that are a raw address and port get an endpoints body. *)
Definition raw_address (target : string) : bool :=
  string_forall (fun c => is_digit c || Ascii.eqb c "." || Ascii.eqb c ":") target.

Global Instance cluster_external : External := {|
  world := cluster;
  response := unit;
  payload := json;
  api := serve;
  resources := view;
  asleep := feed;
  timeout := fun _ => 2;
  json_dumps := dumps;
  json_loads := loads;
  sha256_hexdigest := digest;
  wants_endpoint := raw_address;
|}.

Definition hub : KubeIngressProxy :=
  {| namespace := "default"; component_label := "singleuser-server" |}.

Definition start (w : cluster) : state := {| now := w; clock := 0 |}.

(** The route of the examples and the body [add_route] builds for it. *)
Definition foo_name : string := "jupyter--2ffoo-route".
Definition foo_key : string := "default/jupyter--2ffoo-route".
Definition foo_body : resource :=
  (make_ingress foo_name "/foo" "10.0.0.1:8000" (route_labels hub) JEmptyObject).2.

(** An ingress that carries the labels of a route and no annotations. *)
Definition legacy : resource :=
  {| metadata := {| name := "legacy"; annotations := None;
                    labels := route_labels hub |} |}.

(** An empty cluster with all three kinds under watch. *)
Definition bare : cluster :=
  {| objects := []; cached := []; watched := [Endpoints; Service; Ingress] |}.

(** An empty cluster whose ingress reflector is never fed. *)
Definition ingress_blind : cluster :=
  {| objects := []; cached := []; watched := [Endpoints; Service] |}.

(** The service and the ingress of the route are there, its endpoints
    are gone already. *)
Definition orphaned : cluster :=
  {| objects := [(Service, foo_key, foo_body); (Ingress, foo_key, foo_body)];
     cached := [(Service, foo_key, foo_body); (Ingress, foo_key, foo_body)];
     watched := [Endpoints; Service; Ingress] |}.

(** A cluster that holds the ingress without annotations. *)
Definition crowded : cluster :=
  {| objects := [(Ingress, "default/legacy", legacy)];
     cached := [(Ingress, "default/legacy", legacy)];
     watched := [Endpoints; Service; Ingress] |}.

End Cluster.

(* ================================================================== *)
(** * Facts about strings *)
(* ================================================================== *)

Section StringFacts.

Lemma length_append (s1 s2 : string) :
  String.length (s1 +:+ s2) = String.length s1 + String.length s2.
Proof. induction s1 as [|c s1 IH]; simpl; [reflexivity | now rewrite IH]. Qed.

Lemma length_lower (s : string) : String.length (lower s) = String.length s.
Proof. induction s as [|c s IH]; simpl; [reflexivity | now rewrite IH]. Qed.

Lemma length_substring_le (n m : nat) (s : string) :
  String.length (String.substring n m s) <= m.
Proof.
  revert n m. induction s as [|c s IH]; intros [|n] [|m]; simpl; try lia.
  - specialize (IH 0 m). lia.
  - apply (IH n 0).
  - apply (IH n (S m)).
Qed.

Lemma length_substring_0 (m : nat) (s : string) :
  m <= String.length s -> String.length (String.substring 0 m s) = m.
Proof.
  revert m. induction s as [|c s IH]; intros [|m] H; simpl in *; try lia.
  rewrite IH; lia.
Qed.

Lemma string_forall_append (p : ascii -> bool) (s1 s2 : string) :
  string_forall p (s1 +:+ s2) = string_forall p s1 && string_forall p s2.
Proof.
  induction s1 as [|c s1 IH]; simpl; [reflexivity |].
  now rewrite IH, andb_assoc.
Qed.

Lemma string_forall_substring (p : ascii -> bool) (n m : nat) (s : string) :
  string_forall p s = true -> string_forall p (String.substring n m s) = true.
Proof.
  revert n m. induction s as [|c s IH]; intros [|n] [|m] H; simpl in *;
    try reflexivity; apply andb_prop in H as [Hc Hs]; auto.
  rewrite Hc. simpl. auto.
Qed.

Lemma string_forall_impl (p q : ascii -> bool) (s : string) :
  (forall c, p c = true -> q c = true) ->
  string_forall p s = true -> string_forall q s = true.
Proof.
  intros Hpq. induction s as [|c s IH]; simpl; [reflexivity |].
  intros H. apply andb_prop in H as [Hc Hs]. now rewrite (Hpq _ Hc), IH.
Qed.

Lemma string_forall_lower (p q : ascii -> bool) (s : string) :
  (forall c, p c = true -> q (lower_char c) = true) ->
  string_forall p s = true -> string_forall q (lower s) = true.
Proof.
  intros Hpq. induction s as [|c s IH]; simpl; [reflexivity |].
  intros H. apply andb_prop in H as [Hc Hs]. now rewrite (Hpq _ Hc), IH.
Qed.

Lemma last_char_append (s1 s2 : string) :
  s2 <> EmptyString -> last_char (s1 +:+ s2) = last_char s2.
Proof.
  intros Hne. induction s1 as [|c s1 IH]; [reflexivity |].
  change (String c s1 +:+ s2) with (String c (s1 +:+ s2)).
  destruct (s1 +:+ s2) as [|c' rest] eqn:E.
  - destruct s1; simpl in E; congruence.
  - rewrite <- IH. reflexivity.
Qed.

Lemma append_nonempty (s1 s2 : string) :
  s2 <> EmptyString -> s1 +:+ s2 <> EmptyString.
Proof. destruct s1; simpl; [auto | discriminate]. Qed.

Lemma last_char_lower (s : string) :
  last_char (lower s) = lower_char <$> last_char s.
Proof.
  induction s as [|c s IH]; simpl; [reflexivity |].
  rewrite IH. destruct s; reflexivity.
Qed.

Lemma last_char_forall (p : ascii -> bool) (s : string) :
  string_forall p s = true -> s <> EmptyString ->
  exists c, last_char s = Some c /\ p c = true.
Proof.
  induction s as [|c s IH]; simpl; [congruence |].
  intros H _. apply andb_prop in H as [Hc Hs].
  destruct s as [|c' s']; [eauto |].
  apply IH; [assumption | congruence].
Qed.

Lemma get_0_lower (s : string) :
  String.get 0 (lower s) = lower_char <$> String.get 0 s.
Proof. destruct s; reflexivity. Qed.

(** Facts on single characters, settled by going through the 256 bytes. *)
Ltac each_byte c :=
  destruct c as [[] [] [] [] [] [] [] []]; vm_compute; try reflexivity; try congruence.

Lemma name_char_lower (c : ascii) :
  name_char c = true -> label_char (lower_char c) = true.
Proof. each_byte c. Qed.

Lemma label_char_name_char (c : ascii) : label_char c = true -> name_char c = true.
Proof. each_byte c. Qed.

Lemma name_char_lower_name_char (c : ascii) :
  name_char c = true -> name_char (lower_char c) = true.
Proof. intros H. now apply label_char_name_char, name_char_lower. Qed.

Lemma hex_lower_name_char (c : ascii) : is_hex_lower c = true -> name_char c = true.
Proof. each_byte c. Qed.

Lemma hex_lower_lower (c : ascii) :
  is_hex_lower c = true -> lowercase_alnum (lower_char (lower_char c)) = true.
Proof. each_byte c. Qed.

Lemma escaped_char_name_char (c : ascii) :
  string_forall name_char
    (if lowercase_alnum c && negb (Ascii.eqb c "-")
     then String c EmptyString
     else escapism._escape_char c "-") = true.
Proof. each_byte c. Qed.

Lemma escape_name_chars (s : string) :
  string_forall name_char (escapism.escape s lowercase_alnum "-") = true.
Proof.
  induction s as [|c s IH]; simpl; [reflexivity |].
  rewrite string_forall_append, IH, andb_true_r.
  apply escaped_char_name_char.
Qed.

End StringFacts.

(* ================================================================== *)
(** * The name codec *)
(* ================================================================== *)

Section NameCodec.
Context {ext : External}.

Lemma safe_name_unfold (routespec : string) :
  safe_name_for_routespec routespec = generate_hashed_slug (slug_of routespec) 63 6.
Proof. reflexivity. Qed.

Lemma slug_name_chars (routespec : string) :
  string_forall name_char (slug_of routespec) = true.
Proof.
  unfold slug_of. rewrite !string_forall_append, escape_name_chars. reflexivity.
Qed.

Lemma slug_last_char (routespec : string) :
  last_char (slug_of routespec) = Some "e"%char.
Proof.
  unfold slug_of.
  rewrite !last_char_append by (try apply append_nonempty; discriminate).
  reflexivity.
Qed.

Lemma short_slug_legal (slug : string) :
  String.length slug < 57 ->
  string_forall name_char slug = true ->
  String.get 0 slug = Some "j"%char ->
  last_char slug = Some "e"%char ->
  legal_name (lower slug).
Proof.
  intros Hlen Hchars Hfirst Hlast. unfold legal_name.
  rewrite length_lower, get_0_lower, last_char_lower, Hfirst, Hlast.
  repeat split.
  - destruct slug; [discriminate | simpl; lia].
  - lia.
  - now apply (string_forall_lower name_char), Hchars; apply name_char_lower.
  - exists "j"%char. split; reflexivity.
  - exists "e"%char. split; reflexivity.
Qed.

Lemma cut_slug_shape (slug : string) :
  hexdigest_contract ->
  57 <= String.length slug ->
  string_forall name_char slug = true ->
  String.get 0 slug = Some "j"%char ->
  let n := generate_hashed_slug slug 63 6 in
  String.length n = 63 /\ string_forall name_char n = true /\ legal_name (lower n).
Proof.
  intros Hd Hlen Hchars Hfirst n.
  destruct (Hd slug) as [Hdlen Hdhex].
  assert (Hn : n = lower (String.substring 0 56 slug +:+ "-"
                          +:+ String.substring 0 6 (sha256_hexdigest slug))).
  { subst n. unfold generate_hashed_slug.
    destruct (Nat.ltb_spec (String.length slug) (63 - 6)) as [H|H];
      [change (63 - 6) with 57 in H; lia |].
    reflexivity. }
  set (cut := String.substring 0 56 slug) in *.
  set (h := String.substring 0 6 (sha256_hexdigest slug)) in *.
  assert (Hcutlen : String.length cut = 56) by (apply length_substring_0; lia).
  assert (Hhlen : String.length h = 6) by (apply length_substring_0; lia).
  assert (Hhne : h <> EmptyString) by (intros E; rewrite E in Hhlen; discriminate).
  assert (Hlength : String.length n = 63).
  { rewrite Hn, length_lower, !length_append, Hcutlen, Hhlen. reflexivity. }
  assert (Hraw : string_forall name_char (cut +:+ "-" +:+ h) = true).
  { rewrite !string_forall_append. unfold cut, h.
    rewrite (string_forall_substring _ _ _ _ Hchars).
    rewrite (string_forall_impl is_hex_lower name_char _ hex_lower_name_char
               (string_forall_substring _ _ _ _ Hdhex)).
    reflexivity. }
  assert (Hnchars : string_forall name_char n = true).
  { rewrite Hn. apply (string_forall_lower name_char); [| exact Hraw].
    apply name_char_lower_name_char. }
  split; [exact Hlength |]. split; [exact Hnchars |].
  unfold legal_name. rewrite length_lower, Hlength.
  repeat split; try lia.
  - apply (string_forall_lower name_char); [apply name_char_lower | exact Hnchars].
  - exists "j"%char. split; [| reflexivity].
    rewrite Hn, !get_0_lower. unfold cut.
    destruct slug as [|c slug]; [discriminate |].
    simpl in Hfirst. injection Hfirst as ->. reflexivity.
  - destruct (last_char_forall is_hex_lower h) as (c & Hc & Hhex);
      [apply string_forall_substring, Hdhex | exact Hhne |].
    exists (lower_char (lower_char c)). split; [| now apply hex_lower_lower].
    rewrite Hn, !last_char_lower, !last_char_append, Hc; try assumption.
    + reflexivity.
    + destruct h; [contradiction | discriminate].
Qed.

(** C7, as the code has it.  For every routespec, [safe_name_for_routespec]
    returns a string of 1 to 63 characters made of ASCII letters, digits
    and the dash; dashes come from the escape character and from the fixed
    prefix and suffix, upper-case letters from the hexadecimal digits of
    an escape.  In lower case, as [add_route] and [delete_route] use it, it
    is a legal resource name: lowercase letters, digits and dashes only, a
    letter first, a letter or digit last.  The digest is taken to be 64
    lowercase hexadecimal digits. *)
Theorem safe_name_for_routespec_legal (routespec : string) :
  hexdigest_contract ->
  1 <= String.length (safe_name_for_routespec routespec) <= 63 /\
  string_forall name_char (safe_name_for_routespec routespec) = true /\
  legal_name (lower (safe_name_for_routespec routespec)).
Proof.
  intros Hd. rewrite safe_name_unfold.
  pose proof (slug_name_chars routespec) as Hchars.
  pose proof (slug_last_char routespec) as Hlast.
  assert (Hfirst : String.get 0 (slug_of routespec) = Some "j"%char) by reflexivity.
  destruct (Nat.lt_ge_cases (String.length (slug_of routespec)) 57) as [Hshort|Hlong].
  - assert (Hid : generate_hashed_slug (slug_of routespec) 63 6 = slug_of routespec).
    { unfold generate_hashed_slug.
      destruct (Nat.ltb_spec (String.length (slug_of routespec)) (63 - 6)) as [H|H];
        [reflexivity | change (63 - 6) with 57 in H; lia]. }
    rewrite Hid. split; [| split].
    + split; [| lia]. destruct (slug_of routespec); [discriminate | simpl; lia].
    + exact Hchars.
    + now apply short_slug_legal.
  - destruct (cut_slug_shape (slug_of routespec) Hd Hlong Hchars Hfirst) as (Hl & Hc & Hn).
    split; [lia |]. split; assumption.
Qed.

End NameCodec.

(* ================================================================== *)
(** * Facts about coroutines *)
(* ================================================================== *)

Section CoroutineFacts.
Context {ext : External}.

Lemma bind_raise {A B} (m : coroutine A) (f : A -> coroutine B) s e s1 t :
  m s = (Raise e, s1, t) -> bind m f s = (Raise e, s1, t).
Proof. intros H. unfold bind. now rewrite H. Qed.

Lemma bind_ret {A B} (m : coroutine A) (f : A -> coroutine B) s a s1 t :
  m s = (Ret a, s1, t) ->
  bind m f s = let '(r, s2, t2) := f a s1 in (r, s2, t ++ t2).
Proof. intros H. unfold bind. now rewrite H. Qed.

Lemma emits_ret {A} P (a : A) : emits P (ret a).
Proof. intros s. constructor. Qed.

Lemma emits_raise {A} P e : emits P (raise (A := A) e).
Proof. intros s. constructor. Qed.

Lemma emits_bind {A B} P (m : coroutine A) (f : A -> coroutine B) :
  emits P m -> (forall a, emits P (f a)) -> emits P (bind m f).
Proof.
  intros Hm Hf s. unfold bind. specialize (Hm s).
  destruct (m s) as [[[a|e] s1] t1]; simpl in *; [| exact Hm].
  specialize (Hf a s1). destruct (f a s1) as [[r s2] t2]; simpl in *.
  apply Forall_app; auto.
Qed.

Lemma emits_try_except {A} P (m : coroutine A) handler :
  emits P m -> (forall e, emits P (handler e)) -> emits P (try_except m handler).
Proof.
  intros Hm Hh s. unfold try_except. specialize (Hm s).
  destruct (m s) as [[[a|e] s1] t1]; simpl in *; [exact Hm |].
  specialize (Hh e s1). destruct (handler e s1) as [[r s2] t2]; simpl in *.
  apply Forall_app; auto.
Qed.

Lemma emits_log_info P msg : quiet P -> emits P (log_info msg).
Proof. intros [_ H] s. repeat constructor. apply H. Qed.

Lemma emits_log_warn P msg : quiet P -> emits P (log_warn msg).
Proof. intros [_ H] s. repeat constructor. apply H. Qed.

Lemma emits_sleep P : quiet P -> emits P sleep.
Proof. intros [H _] s. repeat constructor. exact H. Qed.

Lemma emits_await_coroutine P c : P (EvCall c) -> emits P (await (Coroutine c)).
Proof.
  intros H s. simpl. destruct (api c (now s)) as [r w]. repeat constructor. exact H.
Qed.

Lemma emits_await_object P r : emits P (await (Object r)).
Proof. apply emits_raise. Qed.

Lemma emits_reflector_has P k key :
  (forall found, P (EvPoll k key found)) -> emits P (reflector_has k key).
Proof. intros H s. repeat constructor. apply H. Qed.

Lemma emits_gather P aws : Forall (emits P) aws -> emits P (gather aws).
Proof.
  induction 1 as [|c rest Hc _ IH]; intros s; simpl; [constructor |].
  specialize (Hc s). destruct (c s) as [[r s1] t1].
  specialize (IH s1). destruct (gather rest s1) as [[rs s2] t2].
  simpl in *. apply Forall_app; auto.
Qed.

Lemma emits_backoff_loop P fuel pass_func fail_message deadline :
  quiet P -> emits P pass_func ->
  emits P (backoff_loop fuel pass_func fail_message deadline).
Proof.
  intros Hq Hp. induction fuel as [|fuel IH]; simpl.
  - apply emits_bind; [exact Hp |]. intros [|]; [apply emits_ret |].
    intros s. destruct (deadline <? clock s)%nat; constructor.
  - apply emits_bind; [exact Hp |]. intros [|]; [apply emits_ret |].
    intros s. destruct (deadline <? clock s)%nat; [constructor |].
    apply emits_bind; [now apply emits_sleep | intros _; exact IH].
Qed.

Lemma emits_exponential_backoff P pass_func fail_message :
  quiet P -> emits P pass_func ->
  emits P (exponential_backoff pass_func fail_message).
Proof. intros Hq Hp s. now apply emits_backoff_loop. Qed.

Variable self : KubeIngressProxy.

Lemma emits_delete_if_exists P kind safe_name future :
  quiet P -> emits P (await future) ->
  emits P (delete_if_exists kind safe_name future).
Proof.
  intros Hq Hf. apply emits_try_except.
  - apply emits_bind; [exact Hf | intros _; now apply emits_log_info].
  - intros [status| | | |]; try apply emits_raise.
    destruct (negb (status =? 404)%Z); [apply emits_raise | now apply emits_log_warn].
Qed.

Lemma emits_ensure_object P safe_name create_func patch_func body kind :
  quiet P ->
  P (EvCall (create_func (namespace self) body)) ->
  P (EvCall (patch_func (namespace self) body (name (metadata body)))) ->
  emits P (ensure_object self safe_name create_func patch_func body kind).
Proof.
  intros Hq Hc Hp. apply emits_try_except.
  - apply emits_bind; [now apply emits_await_coroutine |].
    intros _; now apply emits_log_info.
  - intros [status| | | |]; try apply emits_raise.
    destruct (status =? 409)%Z; [| apply emits_raise].
    apply emits_bind; [now apply emits_log_warn | intros _].
    apply emits_bind; [now apply emits_await_coroutine | intros _; apply emits_ret].
Qed.

End CoroutineFacts.

(* ================================================================== *)
(** * The route reconciler: [ensure_object] and [add_route] *)
(* ================================================================== *)

Section Reconciler.
Context {ext : External}.
Variable self : KubeIngressProxy.

Lemma addressed_to_quiet ns n : quiet (addressed_to ns n).
Proof. split; simpl; auto. Qed.

Lemma step_of_quiet k : quiet (step_of k).
Proof. split; simpl; auto. Qed.

Lemma write_of_quiet k : quiet (write_of k).
Proof. split; simpl; auto. Qed.

Lemma write_of_step_of k t : Forall (write_of k) t -> Forall (step_of k) t.
Proof.
  intros H. eapply Forall_impl; [exact H |].
  intros [c|k' key found| |level msg]; simpl; tauto.
Qed.

Lemma write_of_not_polled k k' key t : Forall (write_of k) t -> ~ polled k' key t.
Proof.
  intros Hw [found Hin]. rewrite Forall_forall in Hw. exact (Hw _ Hin).
Qed.

Lemma step_of_not_polled k k' key t :
  k <> k' -> Forall (step_of k) t -> ~ polled k' key t.
Proof.
  intros Hne Hs [found Hin]. rewrite Forall_forall in Hs.
  apply Hne. symmetry. exact (Hs _ Hin).
Qed.

Lemma add_route_addressed routespec target data :
  emits (addressed_to (namespace self) (lower (safe_name_for_routespec routespec)))
        (add_route self routespec target data).
Proof.
  pose proof (addressed_to_quiet (namespace self)
                (lower (safe_name_for_routespec routespec))) as Hq.
  assert (Hpoll : forall k, emits (addressed_to (namespace self)
                    (lower (safe_name_for_routespec routespec)))
                    (reflector_has k (cache_key self
                       (lower (safe_name_for_routespec routespec))))).
  { intros k. apply emits_reflector_has. reflexivity. }
  unfold add_route, make_ingress.
  repeat first
    [ apply emits_bind; [| intros ?]
    | apply emits_ret
    | apply emits_exponential_backoff; [exact Hq | apply Hpoll]
    | apply emits_ensure_object; [exact Hq | split; reflexivity | split; reflexivity]
    | apply emits_delete_if_exists; [exact Hq | apply emits_await_object]
    | apply emits_await_coroutine; split; reflexivity
    | destruct (wants_endpoint target) ].
Qed.

Lemma delete_route_addressed routespec :
  emits (addressed_to (namespace self) (lower (safe_name_for_routespec routespec)))
        (delete_route self routespec).
Proof.
  pose proof (addressed_to_quiet (namespace self)
                (lower (safe_name_for_routespec routespec))) as Hq.
  unfold delete_route.
  repeat first
    [ apply emits_bind; [| intros ?]
    | apply emits_await_coroutine; split; reflexivity
    | apply emits_gather; repeat constructor
    | apply emits_delete_if_exists; [exact Hq | apply emits_await_object] ].
Qed.

(** C8.  The safe name is a function of the routespec alone.  Whatever
    the state of the world, the target and the payload, every request and
    every look into a reflector made by [add_route(r, ...)], by a later
    [delete_route(r)] and by a repeated [add_route(r, ...)] is addressed to
    the configured namespace and to the one name
    [safe_name_for_routespec(r).lower()]. *)
Theorem safe_name_addresses_the_same_resources
    (routespec target target' : string) (data data' : payload) (s1 s2 s3 : state) :
  Forall (addressed_to (namespace self) (lower (safe_name_for_routespec routespec)))
    ((add_route self routespec target data s1).2
     ++ (delete_route self routespec s2).2
     ++ (add_route self routespec target' data' s3).2).
Proof.
  repeat apply Forall_app_2.
  - apply add_route_addressed.
  - apply delete_route_addressed.
  - apply add_route_addressed.
Qed.

(** C2.  [ensure_object] awaits the create call; when that raises an
    [ApiException] with status 409 it awaits exactly one patch call, for the
    same namespace and body and the name [body.metadata.name], and its
    outcome is the outcome of that patch call: the conflict is not
    surfaced.  When the create call raises any other status, that
    exception is raised again as it is and nothing else is awaited. *)
Theorem ensure_object_conflict_policy
    (safe_name kind : string)
    (create_func : string -> resource -> api_call)
    (patch_func : string -> resource -> string -> api_call)
    (body : resource) (s : state) (status : Z) (w1 : world) :
  api (create_func (namespace self) body) (now s) = (inl status, w1) ->
  let create := create_func (namespace self) body in
  let patch := patch_func (namespace self) body (name (metadata body)) in
  ensure_object self safe_name create_func patch_func body kind s =
    if (status =? 409)%Z then
      (match (api patch w1).1 with
       | inl status' => Raise (ApiException status')
       | inr _ => Ret tt
       end,
       {| now := (api patch w1).2; clock := clock s |},
       [EvCall create;
        EvLog WARNING ("Trying to patch " +:+ kind +:+ "/" +:+ safe_name
                       +:+ ", it already exists");
        EvCall patch])
    else
      (Raise (ApiException status), {| now := w1; clock := clock s |},
       [EvCall create]).
Proof.
  intros Hcreate create patch.
  unfold ensure_object, try_except, bind, await. rewrite Hcreate.
  destruct (status =? 409)%Z; [| reflexivity].
  unfold log_warn. simpl. subst patch.
  destruct (api (patch_func (namespace self) body (name (metadata body))) w1)
    as [[status'|resp] w2]; reflexivity.
Qed.

(** ** The confirmation wait *)

(** With enough fuel to reach the deadline, more fuel changes nothing: the
    bound on the sleeps in [backoff_loop] is never what ends the loop. *)
Lemma backoff_loop_fuel k key msg deadline fuel fuel' s :
  deadline < clock s + fuel -> deadline < clock s + fuel' ->
  backoff_loop fuel (reflector_has k key) msg deadline s =
  backoff_loop fuel' (reflector_has k key) msg deadline s.
Proof.
  revert fuel' s. induction fuel as [|fuel IH]; intros fuel' s H H'.
  - destruct fuel'; simpl; unfold bind, reflector_has;
      destruct (in_keys key (resources k (now s))); try reflexivity;
      destruct (Nat.ltb_spec deadline (clock s)); try reflexivity; lia.
  - destruct fuel' as [|fuel']; simpl; unfold bind, reflector_has;
      destruct (in_keys key (resources k (now s))); try reflexivity;
      destruct (Nat.ltb_spec deadline (clock s)); try reflexivity; try lia.
    unfold sleep. simpl.
    rewrite (IH fuel'); [reflexivity | simpl; lia | simpl; lia].
Qed.

(** The loop of [exponential_backoff] as the source writes it, one turn
    at a time. *)
Lemma exponential_backoff_turn k key msg deadline fuel s :
  deadline < clock s + fuel ->
  backoff_loop fuel (reflector_has k key) msg deadline s =
    if in_keys key (resources k (now s)) then (Ret true, s, [EvPoll k key true])
    else if (deadline <? clock s)%nat
         then (Raise (TimeoutError msg), s, [EvPoll k key false])
         else
           let '(r, s', t) :=
             backoff_loop fuel (reflector_has k key) msg deadline
               {| now := asleep (now s); clock := S (clock s) |} in
           (r, s', EvPoll k key false :: EvSleep :: t).
Proof.
  intros H. destruct fuel as [|fuel].
  - simpl. unfold bind, reflector_has.
    destruct (in_keys key (resources k (now s))); [reflexivity |].
    destruct (Nat.ltb_spec deadline (clock s)); [reflexivity | lia].
  - set (again := backoff_loop (S fuel) (reflector_has k key) msg deadline
                    {| now := asleep (now s); clock := S (clock s) |}).
    cbn [backoff_loop]. unfold bind at 1. unfold reflector_has at 1.
    destruct (in_keys key (resources k (now s))); [reflexivity |].
    destruct (Nat.ltb_spec deadline (clock s)); [reflexivity |].
    unfold bind, sleep.
    rewrite (backoff_loop_fuel k key msg deadline fuel (S fuel)) by (simpl; lia).
    fold again. destruct again as [[r s'] t]. reflexivity.
Qed.

Lemma count_polls_app k t1 t2 :
  count_polls k (t1 ++ t2) = count_polls k t1 + count_polls k t2.
Proof.
  induction t1 as [|[c|k' key found| |level msg] t1 IH]; simpl; try exact IH.
  - reflexivity.
  - rewrite IH. lia.
Qed.

Lemma count_polls_write_of k k' t : Forall (write_of k') t -> count_polls k t = 0.
Proof.
  induction 1 as [|[c|k'' key found| |level msg] t Hx _ IH]; simpl; auto.
  destruct Hx.
Qed.

Lemma count_polls_step_of k k' t :
  k' <> k -> Forall (step_of k') t -> count_polls k t = 0.
Proof.
  intros Hne. induction 1 as [|[c|k'' key found| |level msg] t Hx _ IH]; simpl; auto.
  simpl in Hx. subst k''. rewrite bool_decide_eq_false_2 by exact Hne. exact IH.
Qed.

Lemma backoff_loop_run k key msg fuel deadline s :
  Forall (step_of k) (backoff_loop fuel (reflector_has k key) msg deadline s).2 /\
  polled k key (backoff_loop fuel (reflector_has k key) msg deadline s).2 /\
  count_polls k (backoff_loop fuel (reflector_has k key) msg deadline s).2
    <= S fuel /\
  match (backoff_loop fuel (reflector_has k key) msg deadline s).1.1 with
  | Ret found =>
      confirmed k key (backoff_loop fuel (reflector_has k key) msg deadline s).2 /\
      in_keys key (resources k
        (now (backoff_loop fuel (reflector_has k key) msg deadline s).1.2)) = true
  | Raise e => e = TimeoutError msg
  end.
Proof.
  assert (Hone : forall found, count_polls k [EvPoll k key found] = 1).
  { intros found. simpl. now rewrite bool_decide_eq_true_2. }
  revert s. induction fuel as [|fuel IH]; intros s; simpl; unfold bind, reflector_has.
  - destruct (in_keys key (resources k (now s))) eqn:Hk; simpl.
    + repeat split; [repeat constructor | eexists; left | rewrite bool_decide_eq_true_2; auto
                    | now exists [] | exact Hk].
    + destruct (deadline <? clock s)%nat; simpl;
        (repeat split; [repeat constructor | eexists; left
                       | rewrite bool_decide_eq_true_2; auto]).
  - destruct (in_keys key (resources k (now s))) eqn:Hk; simpl.
    + repeat split; [repeat constructor | eexists; left
                    | rewrite bool_decide_eq_true_2; auto; lia
                    | now exists [] | exact Hk].
    + destruct (deadline <? clock s)%nat; simpl;
        [repeat split; [repeat constructor | eexists; left
                       | rewrite bool_decide_eq_true_2; auto; lia] |].
      unfold sleep. simpl.
      specialize (IH {| now := asleep (now s); clock := S (clock s) |}).
      destruct (backoff_loop fuel _ _ _ _) as [[r s'] t]. simpl in *.
      destruct IH as (Hs & Hp & Hc & Hr). split; [| split; [| split]].
      * repeat constructor. exact Hs.
      * eexists; left.
      * rewrite bool_decide_eq_true_2 by reflexivity. lia.
      * destruct r as [found|e]; [| exact Hr].
        destruct Hr as [[before ->] Hin]. split; [| exact Hin].
        exists (EvPoll k key false :: EvSleep :: before). reflexivity.
Qed.

Lemma exponential_backoff_run k key msg s :
  Forall (step_of k) (exponential_backoff (reflector_has k key) msg s).2 /\
  polled k key (exponential_backoff (reflector_has k key) msg s).2 /\
  count_polls k (exponential_backoff (reflector_has k key) msg s).2
    <= timeout (now s) + 2 /\
  match (exponential_backoff (reflector_has k key) msg s).1.1 with
  | Ret found =>
      confirmed k key (exponential_backoff (reflector_has k key) msg s).2 /\
      in_keys key (resources k
        (now (exponential_backoff (reflector_has k key) msg s).1.2)) = true
  | Raise e => e = TimeoutError msg
  end.
Proof.
  unfold exponential_backoff.
  destruct (backoff_loop_run k key msg (S (timeout (now s)))
              (clock s + timeout (now s)) s) as (H1 & H2 & H3 & H4).
  repeat split; auto. lia.
Qed.

(** ** One step of [add_route]: write, then wait *)

Lemma step_then (safe_name : string) (k : kind) (body : resource)
    (rest : coroutine unit) (s : state) :
  let key := cache_key self safe_name in
  let msg := not_found_message (kind_word k) safe_name in
  let run := step self safe_name k body rest s in
  exists tk, Forall (step_of k) tk /\ within_budget k tk /\
    ((run.2 = tk /\ failed_in k key msg tk run.1.1)
     \/ (exists s2, confirmed k key tk /\
                    in_keys key (resources k (now s2)) = true /\
                    run = let '(r, s3, t3) := rest s2 in (r, s3, tk ++ t3))).
Proof.
  intros key msg run. subst run. unfold step, bind.
  pose proof (emits_ensure_object self (write_of k) safe_name
                (create_namespaced k) (patch_namespaced k) body (kind_word k)
                (write_of_quiet k) eq_refl eq_refl s) as Hw.
  destruct (ensure_object _ _ _ _ _ _ s) as [[[[]|e] s1] t1]; simpl in Hw.
  2: { exists t1. split; [now apply write_of_step_of |]. split.
       { intros T _. rewrite (count_polls_write_of k k) by exact Hw. lia. }
       left. split; [reflexivity |].
       exists e. split; [reflexivity |]. intros Hp.
       destruct (write_of_not_polled _ _ _ _ Hw Hp). }
  pose proof (exponential_backoff_run k key msg s1) as (Hs & Hp & Hc & Hr).
  assert (Hbudget : within_budget k
            (t1 ++ (exponential_backoff (reflector_has k key) msg s1).2)).
  { intros T HT. rewrite count_polls_app, (count_polls_write_of k k) by exact Hw.
    specialize (HT (now s1)). simpl. lia. }
  destruct (exponential_backoff _ _ s1) as [[[found|e] s2] t2]; simpl in *.
  - destruct Hr as [[before ->] Hin].
    exists (t1 ++ before ++ [EvPoll k key true]). split.
    { apply Forall_app_2; [now apply write_of_step_of | exact Hs]. }
    split; [exact Hbudget |].
    right. exists s2. split; [| split; [exact Hin |]].
    + exists (t1 ++ before). now rewrite <- app_assoc.
    + destruct (rest s2) as [[r s3] t3]. now rewrite <- !app_assoc.
  - exists (t1 ++ t2). split.
    { apply Forall_app_2; [now apply write_of_step_of | exact Hs]. }
    split; [exact Hbudget |].
    left. split; [reflexivity |]. exists e. split; [reflexivity | intros _; exact Hr].
Qed.

Lemma delete_step_events safe_name :
  emits (write_of Endpoints) (delete_step self safe_name).
Proof.
  apply emits_bind; [apply emits_await_coroutine; reflexivity | intros r].
  apply emits_delete_if_exists; [apply write_of_quiet | apply emits_await_object].
Qed.

(** [add_route] is its three steps in a row; without an endpoints body
    the first step is the deletion. *)
Lemma add_route_steps routespec target data :
  add_route self routespec target data =
    let safe_name := lower (safe_name_for_routespec routespec) in
    let '(endpoint, service, ingress) :=
      make_ingress safe_name routespec target (route_labels self) data in
    (match endpoint with
     | Some endpoint => step self safe_name Endpoints endpoint (ret tt)
     | None => delete_step self safe_name
     end) ;;;
    step self safe_name Service service (step self safe_name Ingress ingress (ret tt)).
Proof. reflexivity. Qed.

Lemma service_ingress_run safe_name service ingress s :
  let run := step self safe_name Service service
               (step self safe_name Ingress ingress (ret tt)) s in
  exists tS tI,
    run.2 = tS ++ tI /\
    Forall (step_of Service) tS /\ Forall (step_of Ingress) tI /\
    within_budget Service tS /\ within_budget Ingress tI /\
    tail_outcome self safe_name tS tI run.1.1 run.1.2.
Proof.
  intros run. subst run.
  destruct (step_then safe_name Service service
              (step self safe_name Ingress ingress (ret tt)) s)
    as (tS & HtS & HbS & [[Hev Hfail] | (s2 & Hseen & _ & Hrun)]).
  { exists tS, []. rewrite app_nil_r. repeat split; auto.
    - intros T _. simpl. lia.
    - left. auto. }
  rewrite Hrun. clear Hrun.
  destruct (step_then safe_name Ingress ingress (ret tt) s2)
    as (tI & HtI & HbI & [[Hev Hfail] | (s3 & Hseen' & Hin & Hrun)]).
  - destruct (step self safe_name Ingress ingress (ret tt) s2) as [[r s3] t3].
    simpl in *. subst t3. exists tS, tI. repeat split; auto.
    right. split; [exact Hseen |]. left. exact Hfail.
  - rewrite Hrun. simpl. rewrite app_nil_r. exists tS, tI. repeat split; auto.
    right. split; [exact Hseen |]. right. auto.
Qed.

(** The run of [add_route]: its events fall into the events of the
    endpoints step, of the service step and of the ingress step, in this
    order, and a later step begins only when the one before is through. *)
Lemma add_route_run routespec target data s :
  let safe_name := lower (safe_name_for_routespec routespec) in
  let key := cache_key self safe_name in
  let run := add_route self routespec target data s in
  exists tE tS tI,
    run.2 = tE ++ tS ++ tI /\
    (Forall (step_of Endpoints) tE /\ Forall (step_of Service) tS /\
     Forall (step_of Ingress) tI) /\
    (within_budget Endpoints tE /\ within_budget Service tS /\
     within_budget Ingress tI) /\
    (wants_endpoint target = false -> ~ polled Endpoints key tE) /\
    ((tS = [] /\ tI = [] /\
      failed_in Endpoints key (not_found_message "endpoints" safe_name) tE run.1.1)
     \/ ((wants_endpoint target = true -> confirmed Endpoints key tE) /\
         tail_outcome self safe_name tS tI run.1.1 run.1.2)).
Proof.
  intros safe_name key run. subst run. rewrite add_route_steps.
  fold safe_name. unfold make_ingress.
  set (body := {| metadata := _ |}).
  assert (Hnil : forall k, within_budget k []) by (intros k T _; simpl; lia).
  destruct (wants_endpoint target) eqn:Hw; cbv zeta iota beta.
  - destruct (step_then safe_name Endpoints body (ret tt) s)
      as (tE & HtE & HbE & [[Hev Hfail] | (s2 & Hseen & _ & Hrun)]).
    + destruct (step self safe_name Endpoints body (ret tt) s) as [[r s1] t1] eqn:E.
      simpl in *. subst t1. destruct Hfail as (e & -> & He).
      rewrite (bind_raise _ _ _ _ _ _ E).
      exists tE, [], []. rewrite !app_nil_r. repeat split; auto; try discriminate.
      left. repeat split; auto. exists e. auto.
    + simpl in Hrun. rewrite app_nil_r in Hrun. rewrite (bind_ret _ _ _ _ _ _ Hrun).
      destruct (service_ingress_run safe_name body body s2)
        as (tS & tI & Hev & HtS & HtI & HbS & HbI & Htail).
      destruct (step self safe_name Service body _ s2) as [[r s3] t3]. simpl in *.
      subst t3. exists tE, tS, tI. repeat split; auto; try discriminate.
  - pose proof (delete_step_events safe_name s) as HtE.
    assert (HbE : forall t, Forall (write_of Endpoints) t ->
                            within_budget Endpoints t).
    { intros t Ht T _. rewrite (count_polls_write_of _ _ _ Ht). lia. }
    destruct (delete_step self safe_name s) as [[[[]|e] s1] tE] eqn:E; simpl in HtE.
    + rewrite (bind_ret _ _ _ _ _ _ E).
      destruct (service_ingress_run safe_name body body s1)
        as (tS & tI & Hev & HtS & HtI & HbS & HbI & Htail).
      destruct (step self safe_name Service body _ s1) as [[r s3] t3]. simpl in *.
      subst t3. exists tE, tS, tI. repeat split; auto; try discriminate.
      * now apply write_of_step_of.
      * intros _. now apply (write_of_not_polled Endpoints).
      * right. split; [discriminate | exact Htail].
    + rewrite (bind_raise _ _ _ _ _ _ E).
      exists tE, [], []. rewrite !app_nil_r. simpl. repeat split; auto.
      * now apply write_of_step_of.
      * intros _. now apply (write_of_not_polled Endpoints).
      * left. repeat split; auto. exists e. split; [reflexivity |].
        intros Hp. destruct (write_of_not_polled _ _ _ _ HtE Hp).
Qed.

(** Without an endpoints body, a deletion that fails ends [add_route]
    where it is awaited, a 404 like any other status. *)
Lemma add_route_deletion_failure routespec target data s status w :
  let safe_name := lower (safe_name_for_routespec routespec) in
  let c := delete_namespaced Endpoints safe_name (namespace self) 0 None in
  wants_endpoint target = false ->
  api c (now s) = (inl status, w) ->
  add_route self routespec target data s =
    (Raise (ApiException status), {| now := w; clock := clock s |}, [EvCall c]).
Proof.
  intros safe_name c Hw Hapi. rewrite add_route_steps. fold safe_name.
  unfold make_ingress. rewrite Hw. cbv zeta iota beta.
  apply bind_raise. unfold delete_step. apply bind_raise.
  unfold await. fold c. now rewrite Hapi.
Qed.

(** Nor does it return when the deletion succeeds: the response reaches
    [delete_if_exists], which has nothing to await. *)
Lemma add_route_without_endpoints_body_raises routespec target data s :
  wants_endpoint target = false ->
  exists e, (add_route self routespec target data s).1.1 = Raise e.
Proof.
  intros Hw. rewrite add_route_steps. unfold make_ingress. rewrite Hw.
  cbv zeta iota beta.
  set (safe_name := lower (safe_name_for_routespec routespec)).
  assert (Hdel : exists e s1 t1,
            delete_step self safe_name s = (Raise e, s1, t1)).
  { unfold delete_step, bind, await.
    destruct (api _ (now s)) as [[status|resp] w]; simpl; eauto. }
  destruct Hdel as (e & s1 & t1 & Hdel).
  exists e. now rewrite (bind_raise _ _ _ _ _ _ Hdel).
Qed.



(** C5.  When the reflector of a kind is asked for [namespace/safe_name]
    during [add_route] and never shows it, [add_route] ends, and ends by
    raising the [TimeoutError] of the wait for that kind, with its message;
    nothing catches it.  The wait is bounded: when deadlines lie at most
    [T] ticks ahead, the reflector is asked at most [T + 2] times. *)
Theorem add_route_confirmation_timeout
    (k : kind) (routespec target : string) (data : payload) (s : state) :
  let safe_name := lower (safe_name_for_routespec routespec) in
  let key := cache_key self safe_name in
  let run := add_route self routespec target data s in
  polled k key run.2 ->
  (forall found, EvPoll k key found ∈ run.2 -> found = false) ->
  run.1.1 = Raise (TimeoutError (not_found_message (kind_word k) safe_name)) /\
  forall T, (forall w, timeout w <= T) -> count_polls k run.2 <= T + 2.
Proof.
  intros safe_name key run Hpolled Hnever.
  destruct (add_route_run routespec target data s)
    as (tE & tS & tI & Hev & (HtE & HtS & HtI) & (HbE & HbS & HbI) & HnoE & Hcases).
  fold safe_name key run in Hev, Hcases, HnoE.
  assert (Hno : forall k' t, confirmed k' key t -> t ⊆ run.2 -> k' <> k).
  { intros k' t [b ->] Hsub ->.
    assert (EvPoll k key true ∈ run.2) as Hin
      by (apply Hsub; rewrite elem_of_app, list_elem_of_singleton; auto).
    apply Hnever in Hin. discriminate. }
  assert (HsubE : tE ⊆ run.2)
    by (intros x Hx; rewrite Hev, !elem_of_app; auto).
  assert (HsubS : tS ⊆ run.2)
    by (intros x Hx; rewrite Hev, !elem_of_app; auto).
  assert (HsubI : tI ⊆ run.2)
    by (intros x Hx; rewrite Hev, !elem_of_app; auto).
  assert (Hwhere : polled k key tE \/ polled k key tS \/ polled k key tI).
  { destruct Hpolled as [found Hin]. rewrite Hev, !elem_of_app in Hin.
    unfold polled. destruct Hin as [?|[?|?]]; eauto. }
  split.
  - unfold failed_in, tail_outcome in Hcases. fold safe_name key in Hcases.
    destruct k; simpl.
    + destruct Hwhere as [HE | [HS' | HI']];
        [| destruct (step_of_not_polled Service Endpoints key tS); auto; discriminate
         | destruct (step_of_not_polled Ingress Endpoints key tI); auto; discriminate].
      destruct Hcases as [(_ & _ & e & -> & He) | [Hc _]]; [now rewrite He |].
      destruct (wants_endpoint target) eqn:Hw.
      * destruct (Hno Endpoints tE); auto.
      * destruct HnoE; auto.
    + destruct Hwhere as [HE | [HS' | HI']];
        [destruct (step_of_not_polled Endpoints Service key tE); auto; discriminate
         | | destruct (step_of_not_polled Ingress Service key tI); auto; discriminate].
      destruct Hcases as [(-> & _) | [_ [(_ & e & -> & He) | [Hc _]]]].
      * destruct HS' as [found Hin]. inversion Hin.
      * now rewrite He.
      * destruct (Hno Service tS); auto.
    + destruct Hwhere as [HE | [HS' | HI']];
        [destruct (step_of_not_polled Endpoints Ingress key tE); auto; discriminate
         | destruct (step_of_not_polled Service Ingress key tS); auto; discriminate |].
      destruct Hcases as [(_ & -> & _) | [_ [(-> & _) | [_ [(e & -> & He) | (_ & Hc & _)]]]]].
      * destruct HI' as [found Hin]. inversion Hin.
      * destruct HI' as [found Hin]. inversion Hin.
      * now rewrite He.
      * destruct (Hno Ingress tI); auto.
  - intros T HT. rewrite Hev, !count_polls_app.
    destruct k.
    + rewrite (count_polls_step_of Endpoints Service tS),
        (count_polls_step_of Endpoints Ingress tI) by (auto; discriminate).
      specialize (HbE T HT). lia.
    + rewrite (count_polls_step_of Service Endpoints tE),
        (count_polls_step_of Service Ingress tI) by (auto; discriminate).
      specialize (HbS T HT). lia.
    + rewrite (count_polls_step_of Ingress Endpoints tE),
        (count_polls_step_of Ingress Service tS) by (auto; discriminate).
      specialize (HbI T HT). lia.
Qed.

(** What [add_route] emits, given what its requests and looks satisfy. *)
Lemma add_route_emits (P : event -> Prop) routespec target data :
  let safe_name := lower (safe_name_for_routespec routespec) in
  let body := (make_ingress safe_name routespec target (route_labels self) data).2 in
  quiet P ->
  (forall k found, P (EvPoll k (cache_key self safe_name) found)) ->
  (forall k, P (EvCall (create_namespaced k (namespace self) body))) ->
  (forall k, P (EvCall (patch_namespaced k (namespace self) body safe_name))) ->
  (wants_endpoint target = false ->
   P (EvCall (delete_namespaced Endpoints safe_name (namespace self) 0 None))) ->
  emits P (add_route self routespec target data).
Proof.
  intros safe_name body Hq Hpoll Hcreate Hpatch Hdelete.
  rewrite add_route_steps. fold safe_name. unfold make_ingress in *.
  assert (Hstep : forall k rest, emits P rest ->
                                 emits P (step self safe_name k body rest)).
  { intros k rest Hrest. unfold step.
    apply emits_bind; [apply emits_ensure_object; auto | intros _].
    apply emits_bind; [| intros _; exact Hrest].
    apply emits_exponential_backoff; [exact Hq |].
    apply emits_reflector_has. apply Hpoll. }
  destruct (wants_endpoint target) eqn:Hw; cbv zeta iota beta.
  - apply emits_bind; [| intros _]; repeat apply Hstep; apply emits_ret.
  - apply emits_bind; [| intros _; repeat apply Hstep; apply emits_ret].
    unfold delete_step. apply emits_bind; [apply emits_await_coroutine; auto |].
    intros r. apply emits_delete_if_exists; [exact Hq | apply emits_await_object].
Qed.


Lemma ensure_object_first_event safe_name create_func patch_func body kind s :
  exists rest,
    (ensure_object self safe_name create_func patch_func body kind s).2 =
      EvCall (create_func (namespace self) body) :: rest.
Proof.
  unfold ensure_object, try_except, bind, await.
  destruct (api _ (now s)) as [[status|resp] w1]; simpl; [| eauto].
  destruct (status =? 409)%Z; simpl; [| eauto].
  destruct (api _ w1) as [[status'|resp'] w2]; simpl; eauto.
Qed.

Lemma step_returned safe_name k body rest s s' t :
  step self safe_name k body rest s = (Ret tt, s', t) ->
  exists s2 tk t2,
    t = tk ++ t2 /\ rest s2 = (Ret tt, s', t2) /\
    EvCall (create_namespaced k (namespace self) body) ∈ tk /\
    EvPoll k (cache_key self safe_name) true ∈ tk.
Proof.
  unfold step, bind.
  destruct (ensure_object_first_event safe_name (create_namespaced k)
              (patch_namespaced k) body (kind_word k) s) as [tl Hfirst].
  destruct (ensure_object _ _ _ _ _ _ s) as [[[[]|e] s1] t1]; [| discriminate].
  pose proof (exponential_backoff_run k (cache_key self safe_name)
                (not_found_message (kind_word k) safe_name) s1) as (_ & _ & _ & Hr).
  destruct (exponential_backoff _ _ s1) as [[[found|e] s2] t2]; [| discriminate].
  destruct (rest s2) as [[r s3] t3] eqn:E3. intros [= -> -> <-].
  simpl in *. destruct Hr as [[before ->] _]. subst t1.
  exists s2, (EvCall (create_namespaced k (namespace self) body) :: tl
              ++ before ++ [EvPoll k (cache_key self safe_name) true]), t3.
  split; [simpl; now rewrite <- !app_assoc |]. split; [exact E3 |].
  split; [left |]. right. rewrite !elem_of_app, list_elem_of_singleton. auto.
Qed.

(** The bodies [add_route] submits are those of the builder. *)
Lemma add_route_written routespec target data k :
  emits (fun e => forall body,
           written k e = Some body ->
           body = (make_ingress (lower (safe_name_for_routespec routespec))
                     routespec target (route_labels self) data).2)
        (add_route self routespec target data).
Proof.
  apply add_route_emits.
  - split; [| intros level msg]; intros body [=].
  - intros k0 found body [=].
  - intros k0 body. simpl. destruct (bool_decide (k0 = k)); intros [= <-]; reflexivity.
  - intros k0 body. simpl. destruct (bool_decide (k0 = k)); intros [= <-]; reflexivity.
  - intros _ body [=].
Qed.

(** When [add_route] returns it has submitted the ingress body. *)
Lemma add_route_returned_ingress_write routespec target data s s' t :
  add_route self routespec target data s = (Ret tt, s', t) ->
  wrote Ingress
        (make_ingress (lower (safe_name_for_routespec routespec))
           routespec target (route_labels self) data).2 t.
Proof.
  intros Hrun.
  destruct (wants_endpoint target) eqn:Hw.
  2: { destruct (add_route_without_endpoints_body_raises routespec target
                   data s Hw) as [e He].
       rewrite Hrun in He. discriminate. }
  rewrite add_route_steps in Hrun. unfold make_ingress in *. rewrite Hw in *.
  cbv zeta iota beta in *.
  set (safe_name := lower (safe_name_for_routespec routespec)) in *.
  set (b := {| metadata := _ |}) in *.
  unfold bind in Hrun.
  destruct (step self safe_name Endpoints b (ret tt) s) as [[[[]|e] s1] t1];
    [| discriminate].
  destruct (step self safe_name Service b _ s1) as [[r2 s2] t2] eqn:E2.
  injection Hrun as -> -> <-.
  destruct (step_returned _ _ _ _ _ _ _ E2) as (sb & tb & tb' & -> & E3 & _ & _).
  destruct (step_returned _ _ _ _ _ _ _ E3) as (sc & tc & tc' & -> & _ & HcI & _).
  exists (EvCall (create_namespaced Ingress (namespace self) b)). split.
  - rewrite !elem_of_app. auto.
  - reflexivity.
Qed.

End Reconciler.

(* ================================================================== *)
(** * Route teardown: [delete_if_exists] and [delete_route] *)
(* ================================================================== *)

Section Teardown.
Context {ext : External}.
Variable self : KubeIngressProxy.

(** Handed the coroutine of a deletion, [delete_if_exists] awaits it,
    takes a 404 for done and raises any other status again. *)
Lemma delete_if_exists_coroutine kind safe_name c s :
  delete_if_exists kind safe_name (Coroutine c) s =
    match api c (now s) with
    | (inr _, w) =>
        (Ret tt, {| now := w; clock := clock s |},
         [EvCall c; EvLog INFO ("Deleted " +:+ kind +:+ "/" +:+ safe_name)])
    | (inl status, w) =>
        if (status =? 404)%Z
        then (Ret tt, {| now := w; clock := clock s |},
              [EvCall c;
               EvLog WARNING ("Could not delete " +:+ kind +:+ "/" +:+ safe_name
                              +:+ ": does not exist")])
        else (Raise (ApiException status), {| now := w; clock := clock s |},
              [EvCall c])
    end.
Proof.
  unfold delete_if_exists, try_except, bind, await.
  destruct (api c (now s)) as [[status|resp] w]; [| reflexivity].
  destruct (status =? 404)%Z; reflexivity.
Qed.

(** Handed the response of a deletion already awaited, it has nothing to
    await. *)
Lemma delete_if_exists_object kind safe_name r s :
  delete_if_exists kind safe_name (Object r) s =
    (Raise (TypeError "object can't be used in 'await' expression"), s, []).
Proof. reflexivity. Qed.

(** A deletion that fails ends [delete_route] where it is awaited: the
    deletions after it are not sent, and a 404 is raised like any other
    status. *)
Lemma delete_route_first_failure routespec s status w :
  let safe_name := lower (safe_name_for_routespec routespec) in
  let c := delete_namespaced Endpoints safe_name (namespace self) 0 None in
  api c (now s) = (inl status, w) ->
  delete_route self routespec s =
    (Raise (ApiException status), {| now := w; clock := clock s |}, [EvCall c]).
Proof.
  intros safe_name c H. unfold delete_route, bind, await. fold safe_name c.
  now rewrite H.
Qed.

Lemma gather_raises (c : coroutine unit) (rest : list (coroutine unit)) e s :
  (c s).1.1 = Raise e -> (gather (c :: rest) s).1.1 = Raise e.
Proof.
  intros H. simpl. destruct (c s) as [[r s1] t1].
  destruct (gather rest s1) as [[rs s2] t2]. simpl in *. now rewrite H.
Qed.

(** [delete_route] never returns: a deletion raises where it is awaited,
    or the three responses reach [delete_if_exists]. *)
Lemma delete_route_raises routespec s :
  exists e, (delete_route self routespec s).1.1 = Raise e.
Proof.
  unfold delete_route.
  assert (Hstep : forall c (rest : response -> coroutine unit) s0,
            (forall resp s1, exists e, (rest resp s1).1.1 = Raise e) ->
            exists e, (bind (await (Coroutine c)) rest s0).1.1 = Raise e).
  { intros c rest s0 Hrest. unfold bind, await.
    destruct (api c (now s0)) as [[status|resp] w]; [eexists; reflexivity |].
    destruct (Hrest resp {| now := w; clock := clock s0 |}) as [e He].
    destruct (rest resp _) as [[r s2] t2]. simpl in *. eauto. }
  apply Hstep. intros r1 s1. apply Hstep. intros r2 s2. apply Hstep. intros r3 s3.
  eexists. apply gather_raises. reflexivity.
Qed.

End Teardown.

(* ================================================================== *)
(** * The route table view: [get_all_routes] *)
(* ================================================================== *)

Section RouteTable.
Context {ext : External}.

Lemma Forall_values (P : resource -> Prop) (d : list (string * resource)) :
  Forall (fun entry => P entry.2) d -> Forall P (map snd d).
Proof. induction 1; simpl; constructor; auto. Qed.

Lemma annotation_run ingress key s :
  annotation ingress key s =
    (match annotations (metadata ingress) with
     | None => Raise (KeyError "annotations")
     | Some a => match a !! key with
                 | None => Raise (KeyError key)
                 | Some v => Ret v
                 end
     end, s, []).
Proof.
  unfold annotation. destruct (annotations (metadata ingress)) as [a|]; [| reflexivity].
  destruct (a !! key); reflexivity.
Qed.

(** What [route_item] reads off a readable ingress. *)
Lemma route_item_readable ingress s :
  readable ingress = true ->
  exists r t text d,
    annotation_of ingress proxy_routespec = Some r /\
    annotation_of ingress proxy_target = Some t /\
    annotation_of ingress proxy_data = Some text /\
    json_loads text = Some d /\
    route_item ingress s =
      (Ret (r, {| routespec := r; target := t; data := d |}), s, []).
Proof.
  unfold readable, annotation_of, route_item, bind, loads.
  rewrite !annotation_run.
  destruct (annotations (metadata ingress)) as [a|]; [| discriminate].
  destruct (a !! proxy_routespec) as [r|]; [| discriminate].
  destruct (a !! proxy_target) as [t|]; [| discriminate].
  destruct (a !! proxy_data) as [text|]; [| discriminate].
  destruct (json_loads text) as [d|] eqn:Hd; [| discriminate].
  intros _. exists r, t, text, d. repeat split; auto.
Qed.

Lemma route_item_unreadable ingress s :
  readable ingress = false ->
  exists e, route_item ingress s = (Raise e, s, []) /\ key_or_decoding_error e = true.
Proof.
  unfold readable, route_item, bind, loads. rewrite !annotation_run.
  destruct (annotations (metadata ingress)) as [a|]; [| eauto].
  destruct (a !! proxy_routespec) as [r|]; [| eauto].
  destruct (a !! proxy_target) as [t|]; [| eauto].
  destruct (a !! proxy_data) as [text|]; [| eauto].
  destruct (json_loads text) as [d|] eqn:Hd; [discriminate | eauto].
Qed.

Lemma malformed_unreadable ingress : malformed ingress <-> readable ingress = false.
Proof.
  unfold malformed, readable, annotation_of.
  destruct (annotations (metadata ingress)) as [a|].
  2: { split; [reflexivity | intros _; left; exists proxy_routespec].
       split; [left | reflexivity]. }
  split.
  - intros [(key & Hkey & Hnone) | (text & Htext & Hjson)].
    + rewrite !elem_of_cons in Hkey.
      destruct Hkey as [-> | [-> | [-> | Hkey]]]; [| | | inversion Hkey];
        rewrite Hnone; repeat case_match; reflexivity.
    + rewrite Htext, Hjson. repeat case_match; reflexivity.
  - intros H.
    destruct (a !! proxy_routespec) eqn:H1;
      [| left; exists proxy_routespec; split; [left | exact H1]].
    destruct (a !! proxy_target) eqn:H2;
      [| left; exists proxy_target; split; [right; left | exact H2]].
    destruct (a !! proxy_data) as [text|] eqn:H3;
      [| left; exists proxy_data; split; [right; right; left | exact H3]].
    right. exists text. split; [reflexivity |].
    destruct (json_loads text); [discriminate | reflexivity].
Qed.

(** One unreadable ingress makes the whole comprehension raise. *)
Lemma comprehension_unreadable values routes s :
  Exists (fun ingress => readable ingress = false) values ->
  exists e, comprehension values routes s = (Raise e, s, []) /\
            key_or_decoding_error e = true.
Proof.
  revert routes. induction values as [|ingress values IH]; intros routes Hex.
  - inversion Hex.
  - simpl. unfold bind. destruct (readable ingress) eqn:Hr.
    + destruct (route_item_readable ingress s Hr)
        as (r & t & text & d & _ & _ & _ & _ & Hitem).
      rewrite Hitem. cbn [fst snd].
      apply Exists_cons in Hex as [Hex | Hex]; [congruence |].
      destruct (IH (<[r := {| routespec := r; target := t; data := d |}]> routes) Hex)
        as (e & -> & He).
      exists e. auto.
    + destruct (route_item_unreadable ingress s Hr) as (e & -> & He). exists e. auto.
Qed.

(** Over readable ingresses the comprehension returns; ingresses
    annotated with another routespec leave the entry of [r] alone. *)
Lemma comprehension_other values routes r s :
  Forall (fun ingress => readable ingress = true) values ->
  Forall (fun ingress => routespec_of ingress <> Some r) values ->
  exists routes', comprehension values routes s = (Ret routes', s, []) /\
                  routes' !! r = routes !! r.
Proof.
  revert routes. induction values as [|ingress values IH]; intros routes Hr Ho.
  - exists routes. auto.
  - apply Forall_cons in Hr as [Hr Hrs]. apply Forall_cons in Ho as [Ho Hos].
    simpl. unfold bind.
    destruct (route_item_readable ingress s Hr)
      as (r' & t & text & d & H1 & _ & _ & _ & Hitem).
    rewrite Hitem. cbn [fst snd].
    destruct (IH (<[r' := {| routespec := r'; target := t; data := d |}]> routes) Hrs Hos)
      as (routes' & -> & Hl).
    exists routes'. split; [reflexivity |]. rewrite Hl.
    apply lookup_insert_ne. unfold routespec_of in Ho. congruence.
Qed.

Lemma comprehension_readable values routes s :
  Forall (fun ingress => readable ingress = true) values ->
  exists routes', comprehension values routes s = (Ret routes', s, []).
Proof.
  revert routes. induction values as [|ingress values IH]; intros routes Hr.
  - exists routes. auto.
  - apply Forall_cons in Hr as [Hr Hrs]. simpl. unfold bind.
    destruct (route_item_readable ingress s Hr)
      as (r' & t & text & d & _ & _ & _ & _ & Hitem).
    rewrite Hitem. cbn [fst snd].
    destruct (IH (<[r' := {| routespec := r'; target := t; data := d |}]> routes) Hrs)
      as (routes' & ->).
    exists routes'. reflexivity.
Qed.

Lemma comprehension_app before rest routes s :
  Forall (fun ingress => readable ingress = true) before ->
  exists routes', comprehension (before ++ rest) routes s = comprehension rest routes' s.
Proof.
  revert routes. induction before as [|ingress before IH]; intros routes Hr.
  - exists routes. reflexivity.
  - apply Forall_cons in Hr as [Hr Hrs]. simpl. unfold bind at 1.
    destruct (route_item_readable ingress s Hr)
      as (r' & t & text & d & _ & _ & _ & _ & Hitem).
    rewrite Hitem. cbn [fst snd].
    destruct (IH (<[r' := {| routespec := r'; target := t; data := d |}]> routes) Hrs)
      as (routes' & Heq).
    exists routes'. simpl. rewrite Heq.
    destruct (comprehension rest routes' s) as [[x y] z]. reflexivity.
Qed.

(** On readable ingresses alone [get_all_routes] returns. *)
Lemma get_all_routes_returns_on_readable_ingresses (s : state) :
  Forall (fun entry => readable entry.2 = true) (resources Ingress (now s)) ->
  exists routes, get_all_routes s = (Ret routes, s, []).
Proof.
  intros Hread. unfold get_all_routes.
  now apply comprehension_readable, Forall_values.
Qed.

(** C10.  When the ingress reflector holds an ingress that lacks one of
    the annotations [hub.jupyter.org/proxy-routespec],
    [hub.jupyter.org/proxy-target], [hub.jupyter.org/proxy-data], or whose
    [proxy-data] is not JSON, [get_all_routes] raises a [KeyError] or a
    [JSONDecodeError] and returns nothing, whatever the other ingresses
    are. *)
Theorem get_all_routes_raises_on_malformed_ingress
    (s : state) (key : string) (ingress : resource) :
  (key, ingress) ∈ resources Ingress (now s) ->
  malformed ingress ->
  exists e, get_all_routes s = (Raise e, s, []) /\ key_or_decoding_error e = true.
Proof.
  intros Hin Hbad. unfold get_all_routes.
  apply comprehension_unreadable, Exists_exists.
  exists ingress. split; [| now apply malformed_unreadable].
  apply list_elem_of_In, in_map_iff. exists (key, ingress).
  split; [reflexivity | now apply list_elem_of_In].
Qed.

Variable self : KubeIngressProxy.

(** C3, as the code has it.  Let the payload survive JSON encoding and
    decoding, and let [add_route(r, t, d)] have returned.  Then among its
    requests there is one that writes an ingress; and for every ingress
    body its requests wrote: whenever the ingress reflector holds, under
    [namespace/safe_name], an object with the annotations of that body,
    every other ingress it holds is readable, and no ingress after that
    one is annotated with routespec [r], then [get_all_routes] returns a
    mapping whose entry at key [r] -- the routespec, not the safe name --
    is [{routespec: r, target: t, data: d}], read from the three
    annotations. *)
Theorem add_route_get_all_routes_round_trip
    (r t : string) (d : payload) (s s' : state) (events : list event) :
  let safe_name := lower (safe_name_for_routespec r) in
  add_route self r t d s = (Ret tt, s', events) ->
  json_loads (json_dumps d) = Some d ->
  (exists body, wrote Ingress body events) /\
  forall (body ingress : resource) (later : state)
         (before after : list (string * resource)),
    wrote Ingress body events ->
    resources Ingress (now later) =
      before ++ (cache_key self safe_name, ingress) :: after ->
    shows ingress body ->
    Forall (fun entry => readable entry.2 = true) (before ++ after) ->
    Forall (fun entry => routespec_of entry.2 <> Some r) after ->
    exists routes,
      get_all_routes later = (Ret routes, later, []) /\
      routes !! r = Some {| routespec := r; target := t; data := d |}.
Proof.
  intros safe_name Hrun Hjson. split.
  { eexists. exact (add_route_returned_ingress_write self r t d s s' events Hrun). }
  intros body ingress later before after (e & He & Hbody) Hcache Hshows Hread Hother.
  assert (Hbuilt : body = (make_ingress safe_name r t (route_labels self) d).2).
  { pose proof (add_route_written self r t d Ingress s) as Hall.
    rewrite Hrun in Hall. simpl in Hall. rewrite Forall_forall in Hall.
    exact (Hall e He body Hbody). }
  subst body. destruct Hshows as (a & b & Ha & Hb & Hsub).
  unfold get_all_routes. rewrite Hcache, map_app. simpl.
  apply Forall_app in Hread as [Hbefore Hafter].
  destruct (comprehension_app (map snd before) (ingress :: map snd after) ∅ later)
    as (routes0 & ->); [now apply Forall_values |].
  simpl in Hb. injection Hb as <-.
  assert (Hlook : forall key v,
            (<[proxy_data := json_dumps d]>
               (<[proxy_target := t]> (<[proxy_routespec := r]> ∅)) : gmap string string)
              !! key = Some v -> a !! key = Some v).
  { intros key v Hkv. eapply lookup_weaken; eauto. }
  assert (H1 : a !! proxy_routespec = Some r) by (apply Hlook; reflexivity).
  assert (H2 : a !! proxy_target = Some t) by (apply Hlook; reflexivity).
  assert (H3 : a !! proxy_data = Some (json_dumps d)) by (apply Hlook; reflexivity).
  assert (Hitem : route_item ingress later =
            (Ret (r, {| routespec := r; target := t; data := d |}), later, [])).
  { unfold route_item, bind, loads. rewrite !annotation_run, Ha, H1, H2, H3, Hjson.
    reflexivity. }
  simpl. unfold bind. rewrite Hitem. cbn [fst snd].
  destruct (comprehension_other (map snd after)
              (<[r := {| routespec := r; target := t; data := d |}]> routes0) r later)
    as (routes & -> & Hl);
    [now apply Forall_values | now apply (Forall_values (fun i => routespec_of i <> Some r)) |].
  exists routes. split; [reflexivity |]. rewrite Hl. apply lookup_insert_eq.
Qed.

End RouteTable.

(* ================================================================== *)
(** * Runs on the small cluster *)
(* ================================================================== *)

Section Runs.
Import Cluster.

(** The events of [add_route("/foo", "10.0.0.1:8000", {})] on the empty
    cluster: each write is followed by a look that misses, a sleep and a
    look that finds the key. *)
Example add_route_run_on_bare_cluster :
  add_route hub "/foo" "10.0.0.1:8000" JEmptyObject (start bare) =
    (Ret tt,
     (add_route hub "/foo" "10.0.0.1:8000" JEmptyObject (start bare)).1.2,
     [EvCall (create_namespaced Endpoints "default" foo_body);
      EvLog INFO "Created endpoints/jupyter--2ffoo-route";
      EvPoll Endpoints foo_key false; EvSleep; EvPoll Endpoints foo_key true;
      EvCall (create_namespaced Service "default" foo_body);
      EvLog INFO "Created service/jupyter--2ffoo-route";
      EvPoll Service foo_key false; EvSleep; EvPoll Service foo_key true;
      EvCall (create_namespaced Ingress "default" foo_body);
      EvLog INFO "Created ingress/jupyter--2ffoo-route";
      EvPoll Ingress foo_key false; EvSleep; EvPoll Ingress foo_key true]).
Proof. vm_compute. reflexivity. Qed.

(** The same call where the ingress reflector is never fed. *)
Example add_route_events_on_blind_cluster :
  (add_route hub "/foo" "10.0.0.1:8000" JEmptyObject (start ingress_blind)).2 =
    [EvCall (create_namespaced Endpoints "default" foo_body);
     EvLog INFO "Created endpoints/jupyter--2ffoo-route";
     EvPoll Endpoints foo_key false; EvSleep; EvPoll Endpoints foo_key true;
     EvCall (create_namespaced Service "default" foo_body);
     EvLog INFO "Created service/jupyter--2ffoo-route";
     EvPoll Service foo_key false; EvSleep; EvPoll Service foo_key true;
     EvCall (create_namespaced Ingress "default" foo_body);
     EvLog INFO "Created ingress/jupyter--2ffoo-route";
     EvPoll Ingress foo_key false; EvSleep;
     EvPoll Ingress foo_key false; EvSleep;
     EvPoll Ingress foo_key false; EvSleep;
     EvPoll Ingress foo_key false].
Proof. vm_compute. reflexivity. Qed.

Example digest_contract : hexdigest_contract.
Proof.
  intros s. change (sha256_hexdigest s) with (digest s). unfold digest.
  destruct (Nat.even (String.length s)); split; reflexivity.
Qed.

(** C1, on the code.  [delete_route("/foo")] on a cluster that holds none
    of the three resources: the first deletion answers 404, and the
    [ApiException] is raised where the deletion is awaited, before
    [delete_if_exists] is reached.  The call fails with that exception
    after a single request. *)
Theorem delete_route_raises_when_nothing_exists :
  delete_route hub "/foo" (start bare) =
    (Raise (ApiException 404), start bare,
     [EvCall (delete_namespaced Endpoints "jupyter--2ffoo-route" "default" 0 None)]).
Proof. vm_compute. reflexivity. Qed.

(** C9, on the code.  [delete_route("/foo")] where the endpoints are gone
    and the service and the ingress are left: the endpoints deletion is
    awaited before the next one is sent, so its failure ends the call; the
    deletions of the service and of the ingress are never sent, and both
    objects stay. *)
Theorem delete_route_stops_at_first_failed_deletion :
  (delete_route hub "/foo" (start orphaned)).1.1 = Raise (ApiException 404) /\
  (delete_route hub "/foo" (start orphaned)).2 =
    [EvCall (delete_namespaced Endpoints "jupyter--2ffoo-route" "default" 0 None)] /\
  objects (now (delete_route hub "/foo" (start orphaned)).1.2) =
    [(Service, foo_key, foo_body); (Ingress, foo_key, foo_body)].
Proof. vm_compute. repeat split; reflexivity. Qed.

(** C6, on the code.  [add_route] for a target that gets no endpoints
    body, on a cluster without endpoints of that name: the deletion answers
    404 and the [ApiException] is raised where the deletion is awaited;
    [add_route] fails with it and never reaches the service step. *)
Theorem add_route_raises_when_no_endpoints_to_delete :
  (make_ingress foo_name "/foo" "http://hub:8081" (route_labels hub) JEmptyObject).1.1
    = None /\
  add_route hub "/foo" "http://hub:8081" JEmptyObject (start bare) =
    (Raise (ApiException 404), start bare,
     [EvCall (delete_namespaced Endpoints "jupyter--2ffoo-route" "default" 0 None)]).
Proof. vm_compute. split; reflexivity. Qed.

(** C2 at work: the service exists, the create call answers 409, one
    patch call follows and the upsert returns. *)
Lemma ensure_object_conflict_policy_witness :
  api (create_namespaced Service (namespace hub) foo_body) (now (start orphaned))
    = (inl 409%Z, orphaned) /\
  ensure_object hub foo_name (create_namespaced Service) (patch_namespaced Service)
                foo_body "service" (start orphaned) =
    (Ret tt, start orphaned,
     [EvCall (create_namespaced Service "default" foo_body);
      EvLog WARNING "Trying to patch service/jupyter--2ffoo-route, it already exists";
      EvCall (patch_namespaced Service "default" foo_body "jupyter--2ffoo-route")]).
Proof.
  split; [reflexivity |].
  rewrite (ensure_object_conflict_policy (ext := cluster_external) hub foo_name "service"
             (create_namespaced Service) (patch_namespaced Service)
             foo_body (start orphaned) 409 orphaned eq_refl).
  vm_compute. reflexivity.
Defined.

(** C3, as stated, fails: [add_route] returns and its ingress is in the
    ingress reflector, next to an ingress without annotations;
    [get_all_routes] raises and has no entry for the route. *)
Lemma round_trip_broken_by_unreadable_ingress :
  let run := add_route hub "/foo" "10.0.0.1:8000" JEmptyObject (start crowded) in
  run.1.1 = Ret tt /\
  resources Ingress (now run.1.2) =
    [("default/legacy", legacy); (foo_key, foo_body)] /\
  json_loads (json_dumps JEmptyObject) = Some JEmptyObject /\
  get_all_routes run.1.2 = (Raise (KeyError "annotations"), run.1.2, []).
Proof. vm_compute. repeat split; reflexivity. Qed.

(** C3 at work on the empty cluster. *)
Lemma add_route_get_all_routes_round_trip_witness :
  let run := add_route hub "/foo" "10.0.0.1:8000" JEmptyObject (start bare) in
  run.1.1 = Ret tt /\
  json_loads (json_dumps JEmptyObject) = Some JEmptyObject /\
  wrote Ingress foo_body run.2 /\
  resources Ingress (now run.1.2) = [(foo_key, foo_body)] /\
  exists routes,
    get_all_routes run.1.2 = (Ret routes, run.1.2, []) /\
    routes !! "/foo" =
      Some {| routespec := "/foo"; target := "10.0.0.1:8000"; data := JEmptyObject |}.
Proof.
  intros run.
  assert (Hwrote : wrote Ingress foo_body run.2).
  { exists (EvCall (create_namespaced Ingress "default" foo_body)).
    split; [| reflexivity].
    subst run. rewrite add_route_run_on_bare_cluster. cbn [snd].
    do 10 right. left. }
  split; [reflexivity |]. split; [reflexivity |]. split; [exact Hwrote |].
  split; [reflexivity |].
  apply (proj2 (add_route_get_all_routes_round_trip (ext := cluster_external)
                  hub "/foo" "10.0.0.1:8000" JEmptyObject
                  (start bare) run.1.2 run.2 eq_refl eq_refl)
               foo_body foo_body run.1.2 [] []).
  - exact Hwrote.
  - reflexivity.
  - eexists _, _. split; [reflexivity |]. split; [reflexivity |].
    intros key. destruct (_ !! key); simpl; auto.
  - constructor.
  - constructor.
Defined.


(** C5 at work: the ingress reflector is never fed, and [add_route] ends
    with the timeout of the ingress wait after four looks. *)
Lemma add_route_confirmation_timeout_witness :
  let run := add_route hub "/foo" "10.0.0.1:8000" JEmptyObject (start ingress_blind) in
  polled Ingress foo_key run.2 /\
  (forall found, EvPoll Ingress foo_key found ∈ run.2 -> found = false) /\
  run.1.1 = Raise (TimeoutError
                     "Could not find ingress/jupyter--2ffoo-route after creating it") /\
  count_polls Ingress run.2 <= 2 + 2.
Proof.
  intros run.
  assert (H1 : polled Ingress foo_key run.2).
  { exists false. subst run. rewrite add_route_events_on_blind_cluster.
    do 12 right. left. }
  assert (H2 : forall found, EvPoll Ingress foo_key found ∈ run.2 -> found = false).
  { intros found Hin. subst run. rewrite add_route_events_on_blind_cluster in Hin.
    repeat (apply elem_of_cons in Hin as [Hin|Hin];
            [first [discriminate Hin | injection Hin as ->; reflexivity] |]).
    inversion Hin. }
  destruct (add_route_confirmation_timeout (ext := cluster_external)
              hub Ingress "/foo" "10.0.0.1:8000"
              JEmptyObject (start ingress_blind) H1 H2) as [Hr Hb].
  split; [exact H1 |]. split; [exact H2 |]. split; [exact Hr |].
  apply Hb. intros w. apply Nat.le_refl.
Defined.

(** C7, as stated, fails: the name of the empty routespec is the prefix
    and the suffix with their dashes, and the name of ["/"] has an
    upper-case hexadecimal digit as well. *)
Lemma safe_name_is_not_lowercase_alnum :
  safe_name_for_routespec EmptyString = "jupyter--route" /\
  string_forall lowercase_alnum (safe_name_for_routespec EmptyString) = false /\
  safe_name_for_routespec "/" = "jupyter--2F-route" /\
  string_forall lowercase_alnum (safe_name_for_routespec "/") = false.
Proof. vm_compute. repeat split; reflexivity. Qed.

(** C7 at work on a routespec with a character outside ASCII, long enough
    to be cut. *)
Lemma safe_name_for_routespec_legal_witness :
  hexdigest_contract /\
  lower (safe_name_for_routespec
           "/user/zoë@example.com/lab/tree/a-very-long-notebook-name.ipynb")
    = "jupyter--2fuser-2fzo-c3-ab-40example-2ecom-2flab-2ftree--f0e1d2" /\
  legal_name (lower (safe_name_for_routespec
           "/user/zoë@example.com/lab/tree/a-very-long-notebook-name.ipynb")).
Proof.
  split; [exact digest_contract |]. split; [vm_compute; reflexivity |].
  apply (safe_name_for_routespec_legal (ext := cluster_external)
           "/user/zoë@example.com/lab/tree/a-very-long-notebook-name.ipynb"
           digest_contract).
Defined.

(** C10 at work: the ingress without annotations alone makes
    [get_all_routes] raise. *)
Lemma get_all_routes_raises_on_malformed_ingress_witness :
  ("default/legacy", legacy) ∈ resources Ingress (now (start crowded)) /\
  malformed legacy /\
  exists e, get_all_routes (start crowded) = (Raise e, start crowded, []) /\
            key_or_decoding_error e = true.
Proof.
  assert (H1 : ("default/legacy", legacy) ∈ resources Ingress (now (start crowded)))
    by left.
  assert (H2 : malformed legacy).
  { left. exists proxy_routespec. split; [left | reflexivity]. }
  split; [exact H1 |]. split; [exact H2 |].
  exact (get_all_routes_raises_on_malformed_ingress (ext := cluster_external)
           (start crowded)
           "default/legacy" legacy H1 H2).
Defined.

End Runs.

(* ================================================================== *)
(** * Further properties of the code *)
(* ================================================================== *)

(** ** Vocabulary *)

(** The requests among the events, in the order they were sent. *)
Definition call_of (e : event) : option api_call :=
  match e with
  | EvCall c => Some c
  | _ => None
  end.
Definition calls (t : list event) : list api_call := omap call_of t.

(** Sleeps, and looks into a reflector that did not find the key. *)
Definition is_sleep (e : event) : bool :=
  match e with
  | EvSleep => true
  | _ => false
  end.
Definition is_miss (e : event) : bool :=
  match e with
  | EvPoll _ _ false => true
  | _ => false
  end.
Definition count (p : event -> bool) (t : list event) : nat :=
  length (List.filter p t).

(** What [add_route] may send for a target: writes, and the deletion of
    endpoints only where the builder made no endpoints body. *)
Definition permitted `{External} (target : string) (c : api_call) : Prop :=
  match c with
  | delete_namespaced k _ _ _ _ => k = Endpoints /\ wants_endpoint target = false
  | _ => True
  end.

(** The exception [get_all_routes] raises on an ingress: the first of
    the lookups it makes, in the order it makes them, that fails. *)
Definition error_of `{External} (ingress : resource) : exn :=
  match annotations (metadata ingress) with
  | None => KeyError "annotations"
  | Some a =>
      match a !! proxy_routespec, a !! proxy_target, a !! proxy_data with
      | None, _, _ => KeyError proxy_routespec
      | _, None, _ => KeyError proxy_target
      | _, _, None => KeyError proxy_data
      | _, _, _ => JSONDecodeError
      end
  end.

(** The record [v] is what [get_all_routes] reads off [ingress]. *)
Definition read_from `{External} (ingress : resource) (v : RouteRecord) : Prop :=
  annotation_of ingress proxy_routespec = Some (routespec v) /\
  annotation_of ingress proxy_target = Some (target v) /\
  exists text, annotation_of ingress proxy_data = Some text /\
               json_loads text = Some (data v).

(** A routespec without bytes below 16: the bytes whose escape has a
    single hexadecimal digit. *)
Definition two_digit_escapes (routespec : string) : Prop :=
  string_forall (fun c => (16 <=? ord c)%N) routespec = true.

(** Reading a lowercased escaped text back: a dash and two hexadecimal
    digits are a byte, anything else stands for itself. *)
Definition hex_value (c : ascii) : option N :=
  if is_digit c then Some (ord c - 48)%N
  else if ((97 <=? ord c)%N && (ord c <=? 102)%N) then Some (ord c - 87)%N
  else None.

Fixpoint unescape_lower (s : string) : string :=
  match s with
  | EmptyString => EmptyString
  | String c rest =>
      if Ascii.eqb c "-" then
        match rest with
        | String h1 (String h2 rest') =>
            match hex_value h1, hex_value h2 with
            | Some a, Some b =>
                String (ascii_of_N (16 * a + b)) (unescape_lower rest')
            | _, _ => EmptyString
            end
        | _ => EmptyString
        end
      else String c (unescape_lower rest)
  end.

(** ** [initialize_resources] *)

(** A reflector as [initialize_resources] creates it: the kind it
    watches, its namespace and the labels it selects on. *)
Record reflector := {
  watched_kind : kind;
  watched_namespace : string;
  selector : gmap string string;
}.

(** [initialize_resources]: after the client configuration is loaded and
    the two API clients are made, the ingress, the service and the
    endpoints reflector are created, in this order, with the namespace of
    the proxy and the same two labels. *)
Definition initialize_resources (self : KubeIngressProxy) : list reflector :=
  let labels : gmap string string :=
    <["hub.jupyter.org/proxy-route" := "true"]>
      (<["component" := component_label self]> ∅) in
  [ {| watched_kind := Ingress; watched_namespace := namespace self;
       selector := labels |};
    {| watched_kind := Service; watched_namespace := namespace self;
       selector := labels |};
    {| watched_kind := Endpoints; watched_namespace := namespace self;
       selector := labels |} ].

(** A write is watched: the reflector of its kind has its namespace and
    selects on labels its body carries. *)
Definition watched_write (self : KubeIngressProxy) (e : event) : Prop :=
  match e with
  | EvCall (create_namespaced k ns body)
  | EvCall (patch_namespaced k ns body _) =>
      exists r, r ∈ initialize_resources self /\
                watched_kind r = k /\ watched_namespace r = ns /\
                selector r ⊆ labels (metadata body)
  | _ => True
  end.

(** ** More clusters to run the proxy against *)

Module Scenes.
Import Cluster.

(** Two ingresses of one routespec, with different targets. *)
Definition old_body : resource :=
  (make_ingress "jupyter-old" "/foo" "10.0.0.1:8000" (route_labels hub) JEmptyObject).2.
Definition new_body : resource :=
  (make_ingress "jupyter-new" "/foo" "10.0.0.2:8000" (route_labels hub) JEmptyObject).2.

Definition twice : cluster :=
  {| objects := [(Ingress, "default/old", old_body); (Ingress, "default/new", new_body)];
     cached := [(Ingress, "default/old", old_body); (Ingress, "default/new", new_body)];
     watched := [Endpoints; Service; Ingress] |}.

(** An ingress annotated with a routespec and nothing else. *)
Definition half : resource :=
  {| metadata := {| name := "half";
                    annotations := Some (<[proxy_routespec := "/half"]> ∅);
                    labels := route_labels hub |} |}.

(** The ingress of a route, then one without annotations, then one with a
    routespec only. *)
Definition mixed : cluster :=
  {| objects := [(Ingress, foo_key, foo_body); (Ingress, "default/legacy", legacy);
                 (Ingress, "default/half", half)];
     cached := [(Ingress, foo_key, foo_body); (Ingress, "default/legacy", legacy);
                (Ingress, "default/half", half)];
     watched := [Endpoints; Service; Ingress] |}.

End Scenes.

(** ** Teardown *)

Section TeardownOutcomes.
Context {ext : External}.
Variable self : KubeIngressProxy.

(** X1.  Handed the coroutine of a deletion, [delete_if_exists] sends that
    one request and nothing else; it returns exactly when the deletion
    succeeded or answered 404, and raises the [ApiException] again for
    every other status. *)
Theorem delete_if_exists_tolerates_just_404
    (kind safe_name : string) (c : api_call) (s : state) :
  let run := delete_if_exists kind safe_name (Coroutine c) s in
  calls run.2 = [c] /\
  now run.1.2 = (api c (now s)).2 /\
  (run.1.1 = Ret tt <->
   (exists r, (api c (now s)).1 = inr r) \/ (api c (now s)).1 = inl 404%Z) /\
  (forall status, (api c (now s)).1 = inl status -> status <> 404%Z ->
                  run.1.1 = Raise (ApiException status)).
Proof.
  intros run. subst run. rewrite delete_if_exists_coroutine.
  destruct (api c (now s)) as [[status|resp] w]; simpl.
  - destruct (Z.eqb_spec status 404) as [->|Hne]; simpl.
    + repeat split; auto. intros status [= <-] H. congruence.
    + repeat split; auto.
      * discriminate.
      * intros [[r Hr] | [= ->]]; [discriminate | congruence].
      * intros status' [= <-] _. reflexivity.
  - repeat split; eauto. intros status [=].
Qed.

(** X2.  [delete_route] never returns.  It sends the deletion of the
    endpoints, of the service and of the ingress in this order and stops
    at the first that fails: the exception is the [ApiException] with the
    status of that deletion, the events are the deletions sent up to and
    with it, and the world is the one that deletion left.  When all three
    succeed it has sent all three and raises a [TypeError], the responses
    not being awaitable.  It sends nothing else and logs nothing. *)
Theorem delete_route_always_raises (routespec : string) (s : state) :
  let safe_name := lower (safe_name_for_routespec routespec) in
  let dE := delete_namespaced Endpoints safe_name (namespace self) 0 None in
  let dS := delete_namespaced Service safe_name (namespace self) 0 None in
  let dI := delete_namespaced Ingress safe_name (namespace self) 0 (Some 0%Z) in
  let a1 := api dE (now s) in
  let a2 := api dS a1.2 in
  let a3 := api dI a2.2 in
  let run := delete_route self routespec s in
  (exists e, run.1.1 = Raise e) /\
  (forall status,
     a1.1 = inl status ->
     run.1.1 = Raise (ApiException status) /\
     run.2 = [EvCall dE] /\ now run.1.2 = a1.2) /\
  (forall r1 status,
     a1.1 = inr r1 -> a2.1 = inl status ->
     run.1.1 = Raise (ApiException status) /\
     run.2 = [EvCall dE; EvCall dS] /\ now run.1.2 = a2.2) /\
  (forall r1 r2 status,
     a1.1 = inr r1 -> a2.1 = inr r2 -> a3.1 = inl status ->
     run.1.1 = Raise (ApiException status) /\
     run.2 = [EvCall dE; EvCall dS; EvCall dI] /\ now run.1.2 = a3.2) /\
  (forall r1 r2 r3,
     a1.1 = inr r1 -> a2.1 = inr r2 -> a3.1 = inr r3 ->
     (exists msg, run.1.1 = Raise (TypeError msg)) /\
     run.2 = [EvCall dE; EvCall dS; EvCall dI] /\ now run.1.2 = a3.2) /\
  clock run.1.2 = clock s.
Proof.
  intros safe_name dE dS dI a1 a2 a3 run.
  subst run a1 a2 a3. unfold delete_route, bind, await.
  fold safe_name. fold dE dS dI.
  destruct (api dE (now s)) as [[st1|r1] w1]; simpl.
  { split; [eauto |]. repeat split; intros; simplify_eq; eauto. }
  destruct (api dS w1) as [[st2|r2] w2]; simpl.
  { split; [eauto |]. repeat split; intros; simplify_eq; eauto. }
  destruct (api dI w2) as [[st3|r3] w3]; simpl.
  { split; [eauto |]. repeat split; intros; simplify_eq; eauto. }
  split; [eauto |]. repeat split; intros; simplify_eq; eauto.
Qed.

End TeardownOutcomes.

(** ** The reconciler *)

Section ReconcilerOutcomes.
Context {ext : External}.
Variable self : KubeIngressProxy.

(** Goals that are conjunctions, equivalences and implications between
    equations of outcomes. *)
Ltac settle :=
  repeat match goal with
         | |- _ /\ _ => split
         | |- _ <-> _ => split
         | |- ~ _ => intro
         | |- _ -> _ => intro
         | |- forall _, _ => intro
         | H : _ /\ _ |- _ => destruct H
         | H : _ \/ _ |- _ => destruct H
         | H : ex _ |- _ => destruct H
         end;
  try congruence; eauto 10.

(** Every run of [m] leaves events in [R]. *)
Definition runs_in {A} (R : list event -> Prop) (m : coroutine A) : Prop :=
  forall s, R (m s).2.

Lemma runs_in_bind {A B} (R1 R2 R3 : list event -> Prop)
    (m : coroutine A) (f : A -> coroutine B) :
  runs_in R1 m -> (forall a, runs_in R2 (f a)) ->
  (forall t1, R1 t1 -> R3 t1) ->
  (forall t1 t2, R1 t1 -> R2 t2 -> R3 (t1 ++ t2)) ->
  runs_in R3 (bind m f).
Proof.
  intros Hm Hf Hraise Hret s. unfold bind. specialize (Hm s).
  destruct (m s) as [[[a|e] s1] t1]; simpl in *; [| auto].
  specialize (Hf a s1). destruct (f a s1) as [[r s2] t2]; simpl in *. auto.
Qed.

Lemma runs_in_try_except {A} (R1 R2 R3 : list event -> Prop)
    (m : coroutine A) (handler : exn -> coroutine A) :
  runs_in R1 m -> (forall e, runs_in R2 (handler e)) ->
  (forall t1, R1 t1 -> R3 t1) ->
  (forall t1 t2, R1 t1 -> R2 t2 -> R3 (t1 ++ t2)) ->
  runs_in R3 (try_except m handler).
Proof.
  intros Hm Hh Hret Hraise s. unfold try_except. specialize (Hm s).
  destruct (m s) as [[[a|e] s1] t1]; simpl in *; [auto |].
  specialize (Hh e s1). destruct (handler e s1) as [[r s2] t2]; simpl in *. auto.
Qed.

Lemma calls_app t1 t2 : calls (t1 ++ t2) = calls t1 ++ calls t2.
Proof. apply omap_app. Qed.

Lemma count_app p t1 t2 : count p (t1 ++ t2) = count p t1 + count p t2.
Proof. unfold count. now rewrite List.filter_app, length_app. Qed.

Lemma count_none p t : count p t = 0 <-> forall e, e ∈ t -> p e = false.
Proof.
  unfold count. induction t as [|x t IH]; simpl.
  - split; [intros _ e He; inversion He | reflexivity].
  - destruct (p x) eqn:Hx; simpl.
    + split; [discriminate |]. intros H. specialize (H x (list_elem_of_here _ _)).
      congruence.
    + rewrite IH. split.
      * intros H e He. apply elem_of_cons in He as [->|He]; auto.
      * intros H e He. apply H. now right.
Qed.

(** [m] sends at most [n] requests. *)
Definition sends {A} (n : nat) (m : coroutine A) : Prop :=
  runs_in (fun t => length (calls t) <= n) m.

Lemma sends_bind {A B} n k (m : coroutine A) (f : A -> coroutine B) :
  sends n m -> (forall a, sends k (f a)) -> sends (n + k) (bind m f).
Proof.
  intros Hm Hf.
  apply (runs_in_bind (fun t => length (calls t) <= n)
                      (fun t => length (calls t) <= k)); auto.
  - intros t1 H. simpl in *. lia.
  - intros t1 t2 H1 H2. simpl in *. rewrite calls_app, length_app. lia.
Qed.

Lemma sends_try_except {A} n k (m : coroutine A) handler :
  sends n m -> (forall e, sends k (handler e)) -> sends (n + k) (try_except m handler).
Proof.
  intros Hm Hh.
  apply (runs_in_try_except (fun t => length (calls t) <= n)
                            (fun t => length (calls t) <= k)); auto.
  - intros t1 H. simpl in *. lia.
  - intros t1 t2 H1 H2. simpl in *. rewrite calls_app, length_app. lia.
Qed.

Lemma sends_more {A} n k (m : coroutine A) : n <= k -> sends n m -> sends k m.
Proof. intros Hle Hm s. specialize (Hm s). simpl in *. lia. Qed.

Lemma sends_await o : sends 1 (await o).
Proof.
  intros s. destruct o as [c|r]; simpl; [| lia].
  destruct (api c (now s)) as [[status|resp] w]; simpl; lia.
Qed.

Lemma sends_quiet {A} (m : coroutine A) :
  emits (fun e => call_of e = None) m -> sends 0 m.
Proof.
  intros Hm s. specialize (Hm s). simpl.
  induction Hm as [|e t He _ IH]; simpl; [lia |].
  unfold calls in *. simpl. now rewrite He.
Qed.

Lemma no_call_quiet : quiet (fun e => call_of e = None).
Proof. split; reflexivity. Qed.

Lemma sends_exponential_backoff k key msg :
  sends 0 (exponential_backoff (reflector_has k key) msg).
Proof.
  apply sends_quiet, emits_exponential_backoff; [apply no_call_quiet |].
  now apply emits_reflector_has.
Qed.

Lemma sends_ensure_object safe_name create_func patch_func body kind :
  sends 2 (ensure_object self safe_name create_func patch_func body kind).
Proof.
  unfold ensure_object. apply (sends_try_except 1 1).
  - apply (sends_bind 1 0); [apply sends_await | intros _].
    apply sends_quiet, emits_log_info, no_call_quiet.
  - intros [status| | | |];
      try (apply (sends_more 0 1); [lia | apply sends_quiet, emits_raise]).
    destruct (status =? 409)%Z;
      [| apply (sends_more 0 1); [lia | apply sends_quiet, emits_raise]].
    apply (sends_bind 0 1); [apply sends_quiet, emits_log_warn, no_call_quiet |].
    intros _. apply (sends_bind 1 0); [apply sends_await | intros _].
    apply sends_quiet, emits_ret.
Qed.

Lemma sends_step safe_name k body rest n :
  sends n rest -> sends (2 + n) (step self safe_name k body rest).
Proof.
  intros Hrest. unfold step.
  apply (sends_bind 2 n); [apply sends_ensure_object | intros _].
  apply (sends_bind 0 n); [apply sends_exponential_backoff | intros _; exact Hrest].
Qed.

Lemma sends_delete_step safe_name : sends 1 (delete_step self safe_name).
Proof.
  unfold delete_step. apply (sends_bind 1 0); [apply sends_await | intros r].
  apply sends_quiet, emits_delete_if_exists;
    [apply no_call_quiet | apply emits_await_object].
Qed.

(** X3.  [ensure_object] sends the create request and, only after a 409,
    one patch request.  It returns exactly when the create succeeded, or
    answered 409 and the patch succeeded; a patch that fails after a
    conflict raises its own [ApiException] and is not tried again. *)
Theorem ensure_object_outcome
    (safe_name kind : string)
    (create_func : string -> resource -> api_call)
    (patch_func : string -> resource -> string -> api_call)
    (body : resource) (s : state) :
  let create := create_func (namespace self) body in
  let patch := patch_func (namespace self) body (name (metadata body)) in
  let a1 := api create (now s) in
  let a2 := api patch a1.2 in
  let run := ensure_object self safe_name create_func patch_func body kind s in
  (run.1.1 = Ret tt <->
   (exists r, a1.1 = inr r) \/ (a1.1 = inl 409%Z /\ exists r, a2.1 = inr r)) /\
  (a1.1 = inl 409%Z -> calls run.2 = [create; patch] /\ now run.1.2 = a2.2) /\
  (a1.1 <> inl 409%Z -> calls run.2 = [create] /\ now run.1.2 = a1.2) /\
  (forall status, a1.1 = inl 409%Z -> a2.1 = inl status ->
                  run.1.1 = Raise (ApiException status)).
Proof.
  intros create patch a1 a2 run. subst run a2 a1.
  unfold ensure_object, try_except, bind, await. fold create patch.
  destruct (api create (now s)) as [[status|resp] w1]; simpl.
  - destruct (Z.eqb_spec status 409) as [->|Hne]; simpl.
    + destruct (api patch w1) as [[status'|resp'] w2]; simpl; settle.
    + settle.
  - settle.
Qed.

(** X4.  For a target without an endpoints body [add_route] never returns
    and never writes: its one request is the deletion of the endpoints;
    it raises the [ApiException] of that deletion, or, when the deletion
    succeeded, a [TypeError], its response not being awaitable. *)
Theorem add_route_without_endpoints_body_only_deletes
    (routespec target : string) (data : payload) (s : state) :
  wants_endpoint target = false ->
  let safe_name := lower (safe_name_for_routespec routespec) in
  let dE := delete_namespaced Endpoints safe_name (namespace self) 0 None in
  let run := add_route self routespec target data s in
  run.2 = [EvCall dE] /\
  now run.1.2 = (api dE (now s)).2 /\
  ((exists status, (api dE (now s)).1 = inl status /\
                   run.1.1 = Raise (ApiException status))
   \/ (exists r msg, (api dE (now s)).1 = inr r /\
                     run.1.1 = Raise (TypeError msg))).
Proof.
  intros Hw safe_name dE run. subst run. rewrite add_route_steps.
  fold safe_name. unfold make_ingress. rewrite Hw. cbv zeta iota beta.
  unfold bind at 1. unfold delete_step, bind, await. fold dE.
  destruct (api dE (now s)) as [[status|resp] w]; simpl.
  - split; [reflexivity |]. split; [reflexivity |]. left. eauto.
  - split; [reflexivity |]. split; [reflexivity |]. right. eauto.
Qed.


(** X6.  [add_route] sends at most six requests.  Each is a create or a
    patch, save the one deletion of the endpoints for a target without an
    endpoints body: it never deletes a service or an ingress. *)
Theorem add_route_requests
    (routespec target : string) (data : payload) (s : state) :
  length (calls (add_route self routespec target data s).2) <= 6 /\
  Forall (permitted target) (calls (add_route self routespec target data s).2).
Proof.
  split.
  - revert s. change (sends 6 (add_route self routespec target data)).
    rewrite add_route_steps. unfold make_ingress.
    destruct (wants_endpoint target); cbv zeta iota beta.
    + apply (sends_bind 2 4); [| intros _].
      * apply (sends_step _ _ _ _ 0), sends_quiet, emits_ret.
      * apply (sends_step _ _ _ _ 2), (sends_step _ _ _ _ 0), sends_quiet, emits_ret.
    + apply (sends_more 5 6); [lia |].
      apply (sends_bind 1 4); [apply sends_delete_step | intros _].
      apply (sends_step _ _ _ _ 2), (sends_step _ _ _ _ 0), sends_quiet, emits_ret.
  - assert (H : Forall (fun e => match call_of e with
                                 | Some c => permitted target c
                                 | None => True
                                 end) (add_route self routespec target data s).2).
    { apply add_route_emits; try (split; simpl; auto); simpl; auto. }
    induction H as [|e t He _ IH]; simpl; [constructor |].
    unfold calls in *. simpl. destruct (call_of e); [constructor |]; auto.
Qed.

End ReconcilerOutcomes.

(** ** Sleeps and watched writes *)

Section ReconcilerEconomy.
Context {ext : External}.
Variable self : KubeIngressProxy.

(** No more sleeps than looks that missed. *)
Definition thrifty (t : list event) : Prop :=
  count is_sleep t <= count is_miss t.

Lemma thrifty_app t1 t2 : thrifty t1 -> thrifty t2 -> thrifty (t1 ++ t2).
Proof. unfold thrifty. rewrite !count_app. lia. Qed.

Lemma thrifty_bind {A B} (m : coroutine A) (f : A -> coroutine B) :
  runs_in thrifty m -> (forall a, runs_in thrifty (f a)) -> runs_in thrifty (bind m f).
Proof.
  intros Hm Hf. apply (runs_in_bind thrifty thrifty); auto using thrifty_app.
Qed.

Lemma thrifty_ensure_object safe_name create_func patch_func body kind :
  runs_in thrifty (ensure_object self safe_name create_func patch_func body kind).
Proof.
  intros s. unfold ensure_object, try_except, bind, await, thrifty, count.
  destruct (api _ (now s)) as [[status|resp] w1]; simpl; [| lia].
  destruct (status =? 409)%Z; simpl; [| lia].
  destruct (api _ w1) as [[status'|resp'] w2]; simpl; lia.
Qed.

Lemma thrifty_delete_step safe_name : runs_in thrifty (delete_step self safe_name).
Proof.
  intros s. unfold delete_step, bind, await, thrifty, count.
  destruct (api _ (now s)) as [[status|resp] w1]; simpl; lia.
Qed.

Lemma thrifty_backoff_loop k key msg fuel deadline :
  runs_in thrifty (backoff_loop fuel (reflector_has k key) msg deadline).
Proof.
  induction fuel as [|fuel IH]; intros s; simpl; unfold bind, reflector_has, thrifty.
  - destruct (in_keys key (resources k (now s))); simpl; [unfold count; simpl; lia |].
    destruct (deadline <? clock s)%nat; unfold count; simpl; lia.
  - destruct (in_keys key (resources k (now s))); simpl; [unfold count; simpl; lia |].
    destruct (deadline <? clock s)%nat; simpl; [unfold count; simpl; lia |].
    unfold sleep. simpl.
    specialize (IH {| now := asleep (now s); clock := S (clock s) |}).
    destruct (backoff_loop fuel _ _ _ _) as [[r s'] t]. unfold thrifty in IH.
    simpl in *. unfold count in *. simpl. lia.
Qed.

Lemma thrifty_step safe_name k body rest :
  runs_in thrifty rest -> runs_in thrifty (step self safe_name k body rest).
Proof.
  intros Hrest. unfold step.
  apply thrifty_bind; [apply thrifty_ensure_object | intros _].
  apply thrifty_bind; [| intros _; exact Hrest].
  intros s. apply thrifty_backoff_loop.
Qed.

Lemma thrifty_ret {A} (a : A) : runs_in thrifty (ret a).
Proof. intros s. unfold thrifty, count. simpl. lia. Qed.

(** X7.  [add_route] sleeps only after a look into a reflector that did
    not find the key: it sleeps at most as often as looks missed, and not
    at all when every look finds the key, as when the route's resources
    are in the reflectors already. *)
Theorem add_route_sleeps_only_after_a_miss
    (routespec target : string) (data : payload) (s : state) :
  count is_sleep (add_route self routespec target data s).2
    <= count is_miss (add_route self routespec target data s).2 /\
  ((forall k key, EvPoll k key false ∉ (add_route self routespec target data s).2) ->
   EvSleep ∉ (add_route self routespec target data s).2).
Proof.
  assert (H : thrifty (add_route self routespec target data s).2).
  { revert s. change (runs_in thrifty (add_route self routespec target data)).
    rewrite add_route_steps. unfold make_ingress.
    destruct (wants_endpoint target); cbv zeta iota beta;
      (apply thrifty_bind;
       [| intros _; repeat apply thrifty_step; apply thrifty_ret]).
    - apply thrifty_step, thrifty_ret.
    - apply thrifty_delete_step. }
  split; [exact H |]. intros Hnomiss Hsleep.
  assert (Hzero : count is_miss (add_route self routespec target data s).2 = 0).
  { apply count_none. intros [c|k key [|]| |level msg] He; try reflexivity.
    destruct (Hnomiss k key He). }
  unfold thrifty in H. rewrite Hzero in H.
  assert (Hs : count is_sleep (add_route self routespec target data s).2 = 0) by lia.
  rewrite count_none in Hs. specialize (Hs EvSleep Hsleep). discriminate.
Qed.

Lemma selector_in_route_labels (r : reflector) :
  r ∈ initialize_resources self -> selector r ⊆ route_labels self.
Proof.
  intros Hr. unfold initialize_resources in Hr.
  repeat (apply elem_of_cons in Hr as [-> | Hr]); [| | | inversion Hr];
    simpl; unfold route_labels;
    repeat apply insert_mono; apply map_empty_subseteq.
Qed.

(** X8.  What [add_route] writes is what the reflectors made by
    [initialize_resources] watch: for every create and patch request there
    is a reflector of that kind, in the namespace of the request, and the
    labels it selects on are among the labels of the body. *)
Theorem add_route_writes_are_watched
    (routespec target : string) (data : payload) (s : state) :
  Forall (watched_write self) (add_route self routespec target data s).2.
Proof.
  assert (Hkind : forall k, exists r, r ∈ initialize_resources self /\
                                      watched_kind r = k /\
                                      watched_namespace r = namespace self).
  { intros k.
    exists {| watched_kind := k; watched_namespace := namespace self;
              selector := <["hub.jupyter.org/proxy-route" := "true"]>
                            (<["component" := component_label self]> ∅) |}.
    split; [| split; reflexivity].
    unfold initialize_resources. destruct k.
    - do 2 right. left.
    - right. left.
    - left. }
  apply add_route_emits.
  - split; simpl; auto.
  - simpl. auto.
  - intros k. simpl. destruct (Hkind k) as (r & Hin & Hk & Hns).
    exists r. repeat split; auto. now apply selector_in_route_labels.
  - intros k. simpl. destruct (Hkind k) as (r & Hin & Hk & Hns).
    exists r. repeat split; auto. now apply selector_in_route_labels.
  - simpl. auto.
Qed.

End ReconcilerEconomy.

(** ** The route table *)

Section RouteTableEntries.
Context {ext : External}.

Lemma route_item_pure ingress s s' :
  route_item ingress s = ((route_item ingress s').1.1, s, []).
Proof.
  unfold route_item, bind, loads. rewrite !annotation_run.
  destruct (annotations (metadata ingress)) as [a|]; [| reflexivity].
  destruct (a !! proxy_routespec); [| reflexivity].
  destruct (a !! proxy_target); [| reflexivity].
  destruct (a !! proxy_data) as [text|]; [| reflexivity].
  destruct (json_loads text); reflexivity.
Qed.

Lemma comprehension_pure values routes s s' :
  comprehension values routes s = ((comprehension values routes s').1.1, s, []).
Proof.
  revert routes. induction values as [|ingress values IH]; intros routes;
    [reflexivity |].
  simpl. unfold bind.
  pose proof (route_item_pure ingress s s') as H1.
  pose proof (route_item_pure ingress s' s') as H2.
  destruct (route_item ingress s') as [[x s0] t0]. simpl in H1, H2.
  rewrite H1. injection H2 as -> ->.
  destruct x as [item|e]; [| reflexivity]. cbn [fst snd].
  pose proof (IH (<[item.1 := item.2]> routes)) as H3.
  destruct (comprehension values _ s') as [[r s2] t2]. simpl in H3.
  now rewrite H3.
Qed.

(** X9.  [get_all_routes] is a pure read: it sends nothing, logs nothing,
    sleeps not, leaves the state as it is, and its result, routes or
    exception, is a function of the ingress reflector's content alone. *)
Theorem get_all_routes_is_a_pure_read (s s' : state) :
  (get_all_routes s).2 = [] /\
  (get_all_routes s).1.2 = s /\
  (resources Ingress (now s') = resources Ingress (now s) ->
   (get_all_routes s').1.1 = (get_all_routes s).1.1).
Proof.
  unfold get_all_routes.
  rewrite (comprehension_pure _ _ s s). repeat split.
  intros ->. now rewrite (comprehension_pure _ _ s' s).
Qed.

Lemma route_item_error ingress s :
  readable ingress = false ->
  route_item ingress s = (Raise (error_of ingress), s, []).
Proof.
  unfold readable, error_of, route_item, bind, loads. rewrite !annotation_run.
  destruct (annotations (metadata ingress)) as [a|]; [| reflexivity].
  destruct (a !! proxy_routespec); [| reflexivity].
  destruct (a !! proxy_target); [| reflexivity].
  destruct (a !! proxy_data) as [text|]; [| reflexivity].
  destruct (json_loads text); [discriminate | reflexivity].
Qed.

Lemma route_item_read ingress s :
  readable ingress = true ->
  exists v, route_item ingress s = (Ret (routespec v, v), s, []) /\
            read_from ingress v.
Proof.
  intros Hr.
  destruct (route_item_readable ingress s Hr) as (r & t & text & d & H1 & H2 & H3 & H4 & Hi).
  exists {| routespec := r; target := t; data := d |}.
  split; [exact Hi |]. repeat split; simpl; eauto.
Qed.

Lemma comprehension_returned values acc s routes s' t :
  comprehension values acc s = (Ret routes, s', t) ->
  Forall (fun ingress => readable ingress = true) values /\
  (forall r, is_Some (routes !! r) <->
             is_Some (acc !! r) \/
             exists ingress, ingress ∈ values /\ routespec_of ingress = Some r) /\
  (forall r v, routes !! r = Some v ->
               acc !! r = Some v \/
               (routespec v = r /\ exists ingress, ingress ∈ values /\
                                                   read_from ingress v)) /\
  size routes <= size acc + length values.
Proof.
  revert acc. induction values as [|ingress values IH]; intros acc Hrun.
  - simpl in Hrun. injection Hrun as <- <- <-.
    repeat split; auto; try lia.
    intros [H | (i & Hi & _)]; [exact H | inversion Hi].
  - simpl in Hrun. unfold bind in Hrun.
    destruct (readable ingress) eqn:Hr;
      [| rewrite (route_item_error ingress s Hr) in Hrun; discriminate].
    destruct (route_item_read ingress s Hr) as (v0 & Hitem & Hread).
    rewrite Hitem in Hrun. cbn [fst snd] in Hrun.
    destruct (comprehension values _ s) as [[r1 s1] t1] eqn:E.
    injection Hrun as -> -> <-.
    destruct (IH _ E) as (Hall & Hdom & Hent & Hsize).
    assert (Hspec : routespec_of ingress = Some (routespec v0)) by apply Hread.
    split; [constructor; assumption |]. split; [| split].
    + intros r. rewrite Hdom, lookup_insert_is_Some. split.
      * intros [[<- | [_ H]] | (i & Hi & Hs)]; eauto.
        -- right. exists ingress. split; [left | exact Hspec].
        -- right. exists i. split; [now right | exact Hs].
      * intros [H | (i & Hi & Hs)].
        -- destruct (decide (routespec v0 = r)); auto.
        -- apply elem_of_cons in Hi as [-> | Hi]; [| eauto].
           left. left. congruence.
    + intros r v Hv. destruct (Hent r v Hv) as [Hacc | (Hk & i & Hi & Hrd)].
      * apply lookup_insert_Some in Hacc as [[<- <-] | [_ Hacc]]; [| auto].
        right. split; [reflexivity |]. exists ingress. split; [left | exact Hread].
      * right. split; [exact Hk |]. exists i. split; [now right | exact Hrd].
    + simpl. pose proof (map_size_insert (routespec v0) v0 acc) as Hins.
      destruct (acc !! routespec v0); unfold id in Hins; lia.
Qed.

Lemma in_values (d : list (string * resource)) ingress :
  ingress ∈ map snd d <-> exists key, (key, ingress) ∈ d.
Proof.
  rewrite list_elem_of_In, in_map_iff. split.
  - intros ([key i] & <- & Hin). exists key. now apply list_elem_of_In.
  - intros [key Hin]. exists (key, ingress). split; [reflexivity |].
    now apply list_elem_of_In.
Qed.

(** X10.  When [get_all_routes] returns, the keys of its mapping are just
    the routespec annotations of the ingresses in the reflector; each
    entry repeats its key in its [routespec] field and has all its fields
    read off one and the same ingress; there are no more entries than
    ingresses. *)
Theorem get_all_routes_entries
    (s s' : state) (routes : gmap string RouteRecord) (t : list event) :
  get_all_routes s = (Ret routes, s', t) ->
  (forall r, is_Some (routes !! r) <->
             exists key ingress, (key, ingress) ∈ resources Ingress (now s) /\
                                 routespec_of ingress = Some r) /\
  (forall r v, routes !! r = Some v ->
               routespec v = r /\
               exists key ingress, (key, ingress) ∈ resources Ingress (now s) /\
                                   read_from ingress v) /\
  size routes <= length (resources Ingress (now s)).
Proof.
  unfold get_all_routes. intros Hrun.
  destruct (comprehension_returned _ _ _ _ _ _ Hrun) as (_ & Hdom & Hent & Hsize).
  split; [| split].
  - intros r. rewrite Hdom, lookup_empty. split.
    + intros [[x [=]] | (i & Hi & Hs)]. apply in_values in Hi as [key Hi]. eauto.
    + intros (key & i & Hi & Hs). right. exists i. split; [| exact Hs].
      apply in_values. eauto.
  - intros r v Hv. destruct (Hent r v Hv) as [Hacc | (Hk & i & Hi & Hrd)].
    + rewrite lookup_empty in Hacc. discriminate.
    + split; [exact Hk |]. apply in_values in Hi as [key Hi]. eauto.
  - rewrite map_size_empty, length_map in Hsize. exact Hsize.
Qed.

(** X11.  Where several ingresses are annotated with one routespec, the
    entry of [get_all_routes] for it is read off the last of them in the
    order of the reflector. *)
Theorem get_all_routes_last_ingress_wins
    (s s' : state) (routes : gmap string RouteRecord) (t : list event)
    (before after : list (string * resource)) (key r : string) (ingress : resource) :
  get_all_routes s = (Ret routes, s', t) ->
  resources Ingress (now s) = before ++ (key, ingress) :: after ->
  routespec_of ingress = Some r ->
  Forall (fun entry => routespec_of entry.2 <> Some r) after ->
  exists v, routes !! r = Some v /\ read_from ingress v.
Proof.
  unfold get_all_routes. intros Hrun Hcache Hspec Hafter.
  destruct (comprehension_returned _ _ _ _ _ _ Hrun) as (Hall & _).
  rewrite Hcache, map_app in Hrun, Hall. simpl in Hrun, Hall.
  apply Forall_app in Hall as [Hb Hrest]. apply Forall_cons in Hrest as [Hi Ha].
  destruct (comprehension_app (map snd before) (ingress :: map snd after) ∅ s Hb)
    as (routes0 & Heq).
  rewrite Heq in Hrun. simpl in Hrun. unfold bind in Hrun.
  destruct (route_item_read ingress s Hi) as (v & Hitem & Hread).
  rewrite Hitem in Hrun. cbn [fst snd] in Hrun.
  assert (Hv : routespec v = r).
  { destruct Hread as [H1 _]. unfold routespec_of in Hspec. congruence. }
  destruct (comprehension_other (map snd after) (<[routespec v := v]> routes0) r s Ha)
    as (routes' & Hrun' & Hlook).
  { now apply (Forall_values (fun i => routespec_of i <> Some r)). }
  rewrite Hrun' in Hrun. injection Hrun as <- _ _.
  exists v. split; [| exact Hread].
  rewrite Hlook, Hv. apply lookup_insert_eq.
Qed.

(** X12.  [get_all_routes] raises on the first ingress, in the order of
    the reflector, that it cannot read, whatever follows it; the exception
    is the [KeyError] of the first lookup that fails on that ingress
    (["annotations"], then the routespec, target and data keys), or the
    JSON decoding error of its data. *)
Theorem get_all_routes_raises_at_first_unreadable_ingress
    (s : state) (before after : list (string * resource))
    (key : string) (bad : resource) :
  resources Ingress (now s) = before ++ (key, bad) :: after ->
  Forall (fun entry => readable entry.2 = true) before ->
  readable bad = false ->
  get_all_routes s = (Raise (error_of bad), s, []).
Proof.
  intros Hcache Hbefore Hbad. unfold get_all_routes.
  rewrite Hcache, map_app. simpl.
  destruct (comprehension_app (map snd before) (bad :: map snd after) ∅ s)
    as (routes0 & ->); [now apply Forall_values |].
  simpl. unfold bind. now rewrite (route_item_error bad s Hbad).
Qed.

End RouteTableEntries.

(** ** How the reconciler fails *)

Section ReconcilerFailures.
Context {ext : External}.
Variable self : KubeIngressProxy.
Variable safe_name : string.

(** An exception of a step and the last event before it: a request for an
    [ApiException], a look that missed for a [TimeoutError] with the
    message of the reflector's kind. *)
Definition blamed (e : exn) (t : list event) : Prop :=
  match e with
  | ApiException _ => exists t0 c, t = t0 ++ [EvCall c]
  | TimeoutError msg =>
      exists t0 k, msg = not_found_message (kind_word k) safe_name /\
                   t = t0 ++ [EvPoll k (cache_key self safe_name) false]
  | _ => False
  end.

Definition fails_blamed {A} (m : coroutine A) : Prop :=
  forall s e, (m s).1.1 = Raise e -> blamed e (m s).2.

Lemma blamed_later e t1 t2 : blamed e t2 -> blamed e (t1 ++ t2).
Proof.
  destruct e as [status|msg|msg|key|]; simpl; try tauto.
  - intros (t0 & c & ->). exists (t1 ++ t0), c. now rewrite app_assoc.
  - intros (t0 & k & Hm & ->). exists (t1 ++ t0), k. now rewrite app_assoc.
Qed.

Lemma fails_blamed_bind {A B} (m : coroutine A) (f : A -> coroutine B) :
  fails_blamed m -> (forall a, fails_blamed (f a)) -> fails_blamed (bind m f).
Proof.
  intros Hm Hf s e. specialize (Hm s). unfold bind.
  destruct (m s) as [[[a|e'] s1] t1]; simpl in *.
  - specialize (Hf a s1 e). destruct (f a s1) as [[r s2] t2]; simpl in *.
    intros Hr. apply blamed_later. auto.
  - intros [= ->]. auto.
Qed.

Lemma fails_blamed_ret {A} (a : A) : fails_blamed (ret a).
Proof. intros s e. discriminate. Qed.

Lemma ensure_object_blamed create_func patch_func body kind :
  fails_blamed (ensure_object self safe_name create_func patch_func body kind).
Proof.
  intros s e. unfold ensure_object, try_except, bind, await.
  destruct (api _ (now s)) as [[status|resp] w1]; simpl; [| discriminate].
  destruct (status =? 409)%Z; simpl.
  - destruct (api _ w1) as [[status'|resp'] w2]; simpl; [| discriminate].
    intros [= <-]. simpl. eexists [_; _], _. reflexivity.
  - intros [= <-]. simpl. eexists [], _. reflexivity.
Qed.

Lemma backoff_loop_blamed k fuel deadline :
  fails_blamed (backoff_loop fuel (reflector_has k (cache_key self safe_name))
                  (not_found_message (kind_word k) safe_name) deadline).
Proof.
  induction fuel as [|fuel IH]; intros s e; simpl; unfold bind, reflector_has.
  - destruct (in_keys _ (resources k (now s))); simpl; [discriminate |].
    destruct (deadline <? clock s)%nat; simpl; intros [= <-]; simpl;
      exists [], k; split; reflexivity.
  - destruct (in_keys _ (resources k (now s))); simpl; [discriminate |].
    destruct (deadline <? clock s)%nat; simpl.
    + intros [= <-]. simpl. exists [], k. split; reflexivity.
    + unfold sleep. simpl.
      specialize (IH {| now := asleep (now s); clock := S (clock s) |} e).
      destruct (backoff_loop fuel _ _ _ _) as [[r s'] t]. simpl in *.
      intros Hr. apply (blamed_later e [_; _]). auto.
Qed.

Lemma step_blamed k body rest :
  fails_blamed rest -> fails_blamed (step self safe_name k body rest).
Proof.
  intros Hrest. unfold step.
  apply fails_blamed_bind; [apply ensure_object_blamed | intros _].
  apply fails_blamed_bind; [| intros _; exact Hrest].
  intros s. apply backoff_loop_blamed.
Qed.

End ReconcilerFailures.

Section ReconcilerFailure.
Context {ext : External}.
Variable self : KubeIngressProxy.

(** X13.  Every failure of [add_route] is one of three.  An
    [ApiException] comes right after a request.  A [TimeoutError] comes
    right after a look into a reflector that missed the key, carries the
    message for that reflector's kind, and needs an endpoints body.  A
    [TypeError] needs that there is none, and follows the deletion of the
    endpoints, the single request then.  No other exception leaves
    [add_route]. *)
Theorem add_route_failure_is_explained
    (routespec target : string) (data : payload) (s : state) (e : exn) :
  let safe_name := lower (safe_name_for_routespec routespec) in
  let run := add_route self routespec target data s in
  run.1.1 = Raise e ->
  match e with
  | ApiException _ => exists t c, run.2 = t ++ [EvCall c]
  | TimeoutError msg =>
      wants_endpoint target = true /\
      exists t k, msg = not_found_message (kind_word k) safe_name /\
                  run.2 = t ++ [EvPoll k (cache_key self safe_name) false]
  | TypeError _ =>
      wants_endpoint target = false /\
      run.2 = [EvCall (delete_namespaced Endpoints safe_name (namespace self) 0 None)]
  | KeyError _ | JSONDecodeError => False
  end.
Proof.
  intros safe_name run. subst run. rewrite add_route_steps. fold safe_name.
  unfold make_ingress. destruct (wants_endpoint target) eqn:Hw; cbv zeta iota beta.
  - intros Hr.
    assert (H : blamed self safe_name e
                  (bind (step self safe_name Endpoints
                           (make_ingress safe_name routespec target
                              (route_labels self) data).2 (ret tt))
                        (fun _ => step self safe_name Service
                           (make_ingress safe_name routespec target
                              (route_labels self) data).2
                           (step self safe_name Ingress
                              (make_ingress safe_name routespec target
                                 (route_labels self) data).2 (ret tt))) s).2).
    { apply fails_blamed_bind; [| | exact Hr].
      - apply step_blamed, fails_blamed_ret.
      - intros _. repeat apply step_blamed. apply fails_blamed_ret. }
    destruct e as [status|msg|msg|key|]; simpl in H; try tauto.
  - unfold bind at 1. unfold delete_step, bind, await.
    destruct (api _ (now s)) as [[status|resp] w]; simpl.
    + intros [= <-]. eexists [], _. reflexivity.
    + intros [= <-]. split; reflexivity.
Qed.

End ReconcilerFailure.

(** ** Names of different routespecs *)

Section NameCollisions.
Context {ext : External}.

Local Arguments String.append : simpl nomatch.

Lemma append_assoc (a b c : string) : (a +:+ b) +:+ c = a +:+ (b +:+ c).
Proof. induction a as [|x a IH]; simpl; [reflexivity | now rewrite IH]. Qed.

Lemma append_empty_r (a : string) : a +:+ EmptyString = a.
Proof. induction a as [|x a IH]; simpl; [reflexivity | now rewrite IH]. Qed.

Lemma escape_append (a b : string) (safe : ascii -> bool) (e : ascii) :
  escapism.escape (a +:+ b) safe e
    = escapism.escape a safe e +:+ escapism.escape b safe e.
Proof.
  induction a as [|x a IH]; simpl; [reflexivity |].
  now rewrite IH, append_assoc.
Qed.

(** The escape of one byte, lower-cased, reads back as the byte. *)
Lemma unescape_escaped_char (c : ascii) (rest : string) :
  (16 <=? ord c)%N = true ->
  unescape_lower
    (lower ((if lowercase_alnum c && negb (Ascii.eqb c "-")
             then String c EmptyString
             else escapism._escape_char c "-") +:+ rest))
    = String c (unescape_lower (lower rest)).
Proof.
  destruct c as [[] [] [] [] [] [] [] []]; intros H;
    try (vm_compute in H; discriminate H); reflexivity.
Qed.

Lemma unescape_lower_escape (r t : string) :
  two_digit_escapes r ->
  unescape_lower (lower (escapism.escape r lowercase_alnum "-" +:+ t))
    = r +:+ unescape_lower (lower t).
Proof.
  unfold two_digit_escapes. induction r as [|c r IH]; intros H; [reflexivity |].
  simpl in H. apply andb_true_iff in H as [Hc Hr].
  cbn [escapism.escape]. rewrite append_assoc, (unescape_escaped_char c _ Hc).
  rewrite (IH Hr). reflexivity.
Qed.

(** X14.  The slug that [safe_name_for_routespec] builds tells routespecs
    apart, also once it is lower-cased as [add_route] and [delete_route]
    do: two different routespecs without a byte below 16 have different
    lower-cased slugs. *)
Theorem lowered_slugs_of_different_routespecs_differ (r1 r2 : string) :
  two_digit_escapes r1 -> two_digit_escapes r2 -> r1 <> r2 ->
  lower (slug_of r1) <> lower (slug_of r2).
Proof.
  intros H1 H2 Hne Heq. apply Hne. unfold slug_of in Heq.
  simpl in Heq. injection Heq as Heq.
  apply (f_equal unescape_lower) in Heq.
  rewrite (unescape_lower_escape r1 _ H1), (unescape_lower_escape r2 _ H2) in Heq.
  change (unescape_lower (lower "-route")) with EmptyString in Heq.
  now rewrite !append_empty_r in Heq.
Qed.

(** X15.  A byte below 16 is escaped with a single digit, and the next
    character can pass for the second one: a routespec with the byte 1
    followed by the digit 0 gets the name of the routespec that has the
    byte 16 in their place, whatever stands before and behind. *)
Theorem safe_name_for_routespec_collision (before behind : string) :
  before +:+ String "001" (String "0" behind) <> before +:+ String "016" behind /\
  safe_name_for_routespec (before +:+ String "001" (String "0" behind))
    = safe_name_for_routespec (before +:+ String "016" behind).
Proof.
  split.
  - intros Heq. apply (f_equal String.length) in Heq.
    rewrite !length_append in Heq. simpl in Heq. lia.
  - unfold safe_name_for_routespec. cbv zeta. do 3 f_equal.
    now rewrite !escape_append.
Qed.

End NameCollisions.

(* ================================================================== *)
(** * The further properties at work *)
(* ================================================================== *)

Section FurtherRuns.
Import Cluster Scenes.

(** The target is a URL: no endpoints body is built, the deletion of the
    endpoints is the single request, and on the empty cluster it is
    answered with 404. *)
Lemma add_route_without_endpoints_body_only_deletes_witness :
  wants_endpoint "http://hub:8081" = false /\
  (add_route hub "/foo" "http://hub:8081" JEmptyObject (start bare)).2 =
    [EvCall (delete_namespaced Endpoints (lower (safe_name_for_routespec "/foo"))
               (namespace hub) 0 None)].
Proof.
  split; [reflexivity |].
  exact (proj1 (add_route_without_endpoints_body_only_deletes (ext := cluster_external)
                  hub "/foo" "http://hub:8081" JEmptyObject (start bare) eq_refl)).
Defined.


(** The ingress reflector is never fed: the failure is the timeout of
    the ingress wait, and the target had an endpoints body. *)
Lemma add_route_failure_is_explained_witness :
  (add_route hub "/foo" "10.0.0.1:8000" JEmptyObject (start ingress_blind)).1.1
    = Raise (TimeoutError
               "Could not find ingress/jupyter--2ffoo-route after creating it") /\
  wants_endpoint "10.0.0.1:8000" = true.
Proof.
  split; [reflexivity |].
  exact (proj1 (add_route_failure_is_explained (ext := cluster_external)
                  hub "/foo" "10.0.0.1:8000" JEmptyObject (start ingress_blind)
                  (TimeoutError
                     "Could not find ingress/jupyter--2ffoo-route after creating it")
                  eq_refl)).
Defined.

(** Two ingresses annotated with ["/foo"]: one entry. *)
Lemma get_all_routes_entries_witness :
  exists routes,
    get_all_routes (start twice) = (Ret routes, start twice, []) /\
    size routes <= 2.
Proof.
  assert (H : exists routes,
             get_all_routes (start twice) = (Ret routes, start twice, [])).
  { eexists. vm_compute. reflexivity. }
  destruct H as [routes H]. exists routes. split; [exact H |].
  apply (get_all_routes_entries (ext := cluster_external)
           (start twice) (start twice) routes [] H).
Defined.

(** Of two ingresses annotated with ["/foo"], the later one gives the
    target. *)
Lemma get_all_routes_last_ingress_wins_witness :
  exists routes v,
    get_all_routes (start twice) = (Ret routes, start twice, []) /\
    routes !! "/foo" = Some v /\ target v = "10.0.0.2:8000".
Proof.
  assert (H : exists routes,
             get_all_routes (start twice) = (Ret routes, start twice, [])).
  { eexists. vm_compute. reflexivity. }
  destruct H as [routes H].
  destruct (get_all_routes_last_ingress_wins (ext := cluster_external)
              (start twice) (start twice) routes []
              [("default/old", old_body)] [] "default/new" "/foo" new_body
              H eq_refl eq_refl (List.Forall_nil _))
    as (v & Hv & Hread).
  exists routes, v. split; [exact H |]. split; [exact Hv |].
  destruct Hread as (_ & Ht & _).
  assert (Hn : annotation_of new_body proxy_target = Some "10.0.0.2:8000")
    by reflexivity.
  congruence.
Defined.

(** A readable ingress, then one without annotations, then one without a
    target: the error is that of the second. *)
Lemma get_all_routes_raises_at_first_unreadable_ingress_witness :
  readable foo_body = true /\ readable legacy = false /\
  get_all_routes (start mixed) = (Raise (KeyError "annotations"), start mixed, []).
Proof.
  split; [reflexivity |]. split; [reflexivity |].
  apply (get_all_routes_raises_at_first_unreadable_ingress (ext := cluster_external)
           (start mixed) [(foo_key, foo_body)] [("default/half", half)]
           "default/legacy" legacy).
  - reflexivity.
  - repeat constructor.
  - reflexivity.
Defined.

(** Upper and lower case of a letter are told apart by the escape. *)
Lemma lowered_slugs_of_different_routespecs_differ_witness :
  lower (slug_of "/user/a") = "jupyter--2fuser-2fa-route" /\
  lower (slug_of "/user/A") = "jupyter--2fuser-2f-41-route" /\
  lower (slug_of "/user/a") <> lower (slug_of "/user/A").
Proof.
  split; [reflexivity |]. split; [reflexivity |].
  apply (lowered_slugs_of_different_routespecs_differ "/user/a" "/user/A").
  - reflexivity.
  - reflexivity.
  - discriminate.
Defined.

End FurtherRuns.
